(** * BinaryTree: a linked binary tree with complete-tree array conversion

    Shallow embedding of [BinaryTree.h] (the class as it is compiled) and of
    the members that differ in [BinaryTree.cpp] (the second copy of the
    class: [clone], [compare], and the copy constructor, [operator=] and
    [operator==] built on them).

    Modelling conventions.
    - A [BTNode<T>*] is a value of [BTNode]: [NULL] or a node with its
      element and its two child pointers.  Trees are finite and acyclic.
    - C++ [int] is modelled by [Z]: counts, heights and the indices of
      array construction are taken in [Z], which describes the runs in
      which they stay in range (array construction does as long as
      [2 * n_elements + 1] fits).  The index of [to_flat_array] leaves the
      range on a tree of 32 nodes already, so that member has two forms:
      [to_flat_array], with the index in [Z], and [to_flat_array_int],
      with the index a 32-bit [int] that wraps around as the compiled
      program does.  [to_flat_array_int_agrees] shows that the two
      coincide on every tree of height at most 31.
    - A [T*] array argument is modelled by its cells, a function from the
      index to the cell's value, updated with [<[i := v]>].  The contents
      of an array obtained from [new T[k]] are an explicit argument of the
      member that allocates it: they are indeterminate for a scalar [T] and
      default-constructed for a class type.
    - A visitor (a pointer to a function from [const T&] to [void]) acts
      on the world outside the tree; it is modelled as a state transformer
      [T -> W -> W]. *)

From Stdlib Require Import ZArith Lia.
From stdpp Require Import base tactics option functions list list_numbers strings.

Local Open Scope Z_scope.

(** ** Nodes and trees *)

(** The array cells behind a [T*]. *)
Abbreviation cells T := (Z → T) (only parsing).

(** A result of [int] arithmetic in 32 bits, two's complement: the value
    in [-2^31 .. 2^31 - 1] that is congruent modulo [2^32]. *)
Definition wrap_int (z : Z) : Z := (z + 2 ^ 31) mod 2 ^ 32 - 2 ^ 31.

Section Tree.

Context {T : Type}.

(** [struct BTNode] behind a pointer that may be null. *)
Inductive BTNode : Type :=
| NULL : BTNode
| Node (elem : T) (left right : BTNode) : BTNode.

(** [class BinaryTree]: the only data member is [root]. *)
Record BinaryTree : Type := mkTree { root : BTNode }.

(** [BTNode::is_leaf], called on a node that exists. *)
Definition is_leaf (left right : BTNode) : bool :=
  match left, right with
  | NULL, NULL => true
  | _, _ => false
  end.

(** [BinaryTree()] *)
Definition empty_tree : BinaryTree := mkTree NULL.

(** ** Access and tests *)

Fixpoint node_count_rec (node : BTNode) : Z :=
  match node with
  | NULL => 0
  | Node _ l r => 1 + node_count_rec l + node_count_rec r
  end.

Definition node_count (t : BinaryTree) : Z := node_count_rec (root t).

Definition is_empty (t : BinaryTree) : bool :=
  match root t with
  | Node _ _ _ => false
  | NULL => true
  end.

Fixpoint height_rec (node : BTNode) : Z :=
  match node with
  | NULL => 0
  | Node _ l r =>
      if is_leaf l r then 1
      else
        let lh := height_rec l + 1 in
        let rh := height_rec r + 1 in
        if lh >? rh then lh else rh
  end.

Definition height (t : BinaryTree) : Z := height_rec (root t).

Fixpoint leaf_count_rec (node : BTNode) : Z :=
  match node with
  | NULL => 0
  | Node _ l r =>
      if is_leaf l r then 1
      else leaf_count_rec l + leaf_count_rec r
  end.

Definition leaf_count (t : BinaryTree) : Z := leaf_count_rec (root t).

(** ** Construction from an array *)

(** The helper [init_complete(elements, n_elements, index)].  The recursion
    is on [index], which is doubled until it exceeds [n_elements]; [fuel]
    bounds the depth of the calls and [None] is a run that needs more.
    (With [index <= 0] and [index <= n_elements] the C++ recursion never
    ends; the public entry starts it at [1].) *)
Fixpoint init_complete_rec (fuel : nat) (elements : cells T)
    (n_elements index : Z) : option BTNode :=
  match fuel with
  | O => None
  | S fuel' =>
      if index >? n_elements then Some NULL
      else
        match init_complete_rec fuel' elements n_elements (2 * index),
              init_complete_rec fuel' elements n_elements (2 * index + 1) with
        | Some l, Some r => Some (Node (elements index) l r)
        | _, _ => None
        end
  end.

(** Call depth that the public entry can need: the index at depth [d] is
    at least [2^d], so [n_elements + 1] nested calls always suffice. *)
Definition init_fuel (n_elements : Z) : nat := S (Z.to_nat n_elements).

(** [init_complete(elements, n_elements)]; the constructor
    [BinaryTree(elements, n_elements)] sets [root = NULL] and calls it. *)
Definition init_complete (elements : cells T) (n_elements : Z)
    : option BinaryTree :=
  match init_complete_rec (init_fuel n_elements) elements n_elements 1 with
  | Some r => Some (mkTree r)
  | None => None
  end.

(** ** Traversal *)

Section Traversal.

Context {W : Type}.
Variable f : T → W → W.

Fixpoint preorder_rec (node : BTNode) (w : W) : W :=
  match node with
  | NULL => w
  | Node e l r =>
      let w := f e w in
      let w := preorder_rec l w in
      preorder_rec r w
  end.

Fixpoint inorder_rec (node : BTNode) (w : W) : W :=
  match node with
  | NULL => w
  | Node e l r =>
      let w := inorder_rec l w in
      let w := f e w in
      inorder_rec r w
  end.

Fixpoint postorder_rec (node : BTNode) (w : W) : W :=
  match node with
  | NULL => w
  | Node e l r =>
      let w := postorder_rec l w in
      let w := postorder_rec r w in
      f e w
  end.

Definition preorder (t : BinaryTree) : W → W := preorder_rec (root t).
Definition inorder (t : BinaryTree) : W → W := inorder_rec (root t).
Definition postorder (t : BinaryTree) : W → W := postorder_rec (root t).

End Traversal.

(** ** Conversion to arrays *)

(** What the helper of [to_flat_array] mutates: the caller's array and the
    [int& max_index]. *)
Record flat_state : Type := mkFlat { elements_of : cells T; max_index_of : Z }.

(** The helper [to_flat_array(elements, max, node, index, max_index)]:
    the returned [int] and the state it leaves.  Here [index] is taken in
    [Z]; [to_flat_array_rec_int] below has the 32-bit index. *)
Fixpoint to_flat_array_rec (max : Z) (node : BTNode) (index : Z)
    (st : flat_state) : Z * flat_state :=
  match node with
  | NULL => (0, st)
  | Node e l r =>
      let max_index :=
        if index >? max_index_of st then index else max_index_of st in
      let elements :=
        if index <=? max then <[index := e]> (elements_of st)
        else elements_of st in
      let st := mkFlat elements max_index in
      let st := snd (to_flat_array_rec max l (2 * index) st) in
      let st := snd (to_flat_array_rec max r (2 * index + 1) st) in
      (max_index_of st, st)
  end.

(** [to_flat_array(elements, max)]: the returned [int] and the array. *)
Definition to_flat_array (t : BinaryTree) (elements : cells T) (max : Z)
    : Z * cells T :=
  let max_index := 1 in
  let '(ret, st) := to_flat_array_rec max (root t) 1 (mkFlat elements max_index) in
  (ret, elements_of st).

(** The helper of [to_flat_array] with [index] a 32-bit [int]: the
    products [2 * index] and the sums [2 * index + 1] wrap around. *)
Fixpoint to_flat_array_rec_int (max : Z) (node : BTNode) (index : Z)
    (st : flat_state) : Z * flat_state :=
  match node with
  | NULL => (0, st)
  | Node e l r =>
      let max_index :=
        if index >? max_index_of st then index else max_index_of st in
      let elements :=
        if index <=? max then <[index := e]> (elements_of st)
        else elements_of st in
      let st := mkFlat elements max_index in
      let st := snd (to_flat_array_rec_int max l (wrap_int (2 * index)) st) in
      let st :=
        snd (to_flat_array_rec_int max r (wrap_int (wrap_int (2 * index) + 1)) st) in
      (max_index_of st, st)
  end.

(** [to_flat_array(elements, max)] with the index a 32-bit [int]. *)
Definition to_flat_array_int (t : BinaryTree) (elements : cells T) (max : Z)
    : Z * cells T :=
  let max_index := 1 in
  let '(ret, st) :=
    to_flat_array_rec_int max (root t) 1 (mkFlat elements max_index) in
  (ret, elements_of st).

(** ** Operators *)

(** [T]'s own [operator==] and [operator!=]. *)
Variable elem_eq : T → T → bool.
Variable elem_ne : T → T → bool.

(** The loop [for (i = 1; i <= thisNodeNum; i++)] of [operator==] in
    [BinaryTree.h], entered with [count] iterations left. *)
Fixpoint compare_cells_loop (count : nat) (i : Z) (thisElem srcElem : cells T)
    : bool :=
  match count with
  | O => true
  | S count' =>
      if elem_ne (thisElem i) (srcElem i) then false
      else compare_cells_loop count' (i + 1) thisElem srcElem
  end.

(** [operator==] of [BinaryTree.h].  [thisNew] and [srcNew] are the
    contents of the two arrays as [new T[...]] hands them over. *)
Definition operator_eq_h (this src : BinaryTree) (thisNew srcNew : cells T)
    : bool :=
  let thisNodeNum := node_count this in
  let srcNodeNum := node_count src in
  if negb (thisNodeNum =? srcNodeNum) then false
  else
    let thisElem := snd (to_flat_array this thisNew thisNodeNum) in
    let srcElem := snd (to_flat_array src srcNew srcNodeNum) in
    compare_cells_loop (Z.to_nat thisNodeNum) 1 thisElem srcElem.

Definition operator_ne_h (this src : BinaryTree) (thisNew srcNew : cells T)
    : bool :=
  negb (operator_eq_h this src thisNew srcNew).

(** Copy constructor of [BinaryTree.h]; [srcNew] is the fresh array. *)
Definition copy_h (src : BinaryTree) (srcNew : cells T) : option BinaryTree :=
  let srcNodeNum := node_count src in
  let srcEle := snd (to_flat_array src srcNew srcNodeNum) in
  init_complete srcEle srcNodeNum.

(** [operator=] of [BinaryTree.h]: the old root is dropped, not read. *)
Definition assign_h (this src : BinaryTree) (srcNew : cells T)
    : option BinaryTree :=
  let srcNodeNum := node_count src in
  let srcEle := snd (to_flat_array src srcNew srcNodeNum) in
  let this := mkTree NULL in
  init_complete srcEle srcNodeNum.

(** Copy constructor of [BinaryTree.h] with the index of [to_flat_array]
    a 32-bit [int]. *)
Definition copy_h_int (src : BinaryTree) (srcNew : cells T)
    : option BinaryTree :=
  let srcNodeNum := node_count src in
  let srcEle := snd (to_flat_array_int src srcNew srcNodeNum) in
  init_complete srcEle srcNodeNum.

(** [clone] of [BinaryTree.cpp]. *)
Fixpoint clone (node : BTNode) : BTNode :=
  match node with
  | NULL => NULL
  | Node e l r => Node e (clone l) (clone r)
  end.

(** [compare] of [BinaryTree.cpp]. *)
Fixpoint compare (a b : BTNode) : bool :=
  match a, b with
  | NULL, NULL => true
  | Node ea la ra, Node eb lb rb =>
      if elem_eq ea eb then compare la lb && compare ra rb else false
  | _, _ => false
  end.

(** [operator==] of [BinaryTree.cpp]. *)
Definition operator_eq_cpp (this src : BinaryTree) : bool :=
  match root this, root src with
  | Node _ _ _, NULL => false
  | NULL, Node _ _ _ => false
  | _, _ => compare (root this) (root src)
  end.

Definition operator_ne_cpp (this src : BinaryTree) : bool :=
  negb (operator_eq_cpp this src).

(** Copy constructor and [operator=] of [BinaryTree.cpp]. *)
Definition copy_cpp (src : BinaryTree) : BinaryTree := mkTree (clone (root src)).
Definition assign_cpp (this src : BinaryTree) : BinaryTree :=
  mkTree (clone (root src)).

End Tree.

Arguments BTNode : clear implicits.
Arguments BinaryTree : clear implicits.
Arguments flat_state : clear implicits.

(** * Specification vocabulary *)

(** ** Complete-tree positions *)

(** [under i j]: position [j] lies in the subtree whose root has position
    [i], that is, dropping the low bits of [j] down to the length of [i]
    gives [i]. *)
Definition under (i j : Z) : Prop :=
  Z.log2 i ≤ Z.log2 j ∧ Z.shiftr j (Z.log2 j - Z.log2 i) = i.

Global Instance under_dec i j : Decision (under i j).
Proof. unfold under. apply _. Defined.

Section Specification.

Context {T : Type}.
Implicit Types (node l r a b : BTNode T) (i j index max : Z).

(** Complete-tree positions of the nodes below [node], itself at [index],
    in the order in which [to_flat_array] meets them. *)
Fixpoint indices node index : list Z :=
  match node with
  | NULL => []
  | Node _ l r => index :: indices l (2 * index) ++ indices r (2 * index + 1)
  end.

(** The element of the node at position [j].  Of several nodes at one
    position (there are none when [index >= 1]) it is the one that
    [to_flat_array] meets last. *)
Fixpoint elem_at node index j : option T :=
  match node with
  | NULL => None
  | Node e l r =>
      match elem_at r (2 * index + 1) j with
      | Some x => Some x
      | None =>
          match elem_at l (2 * index) j with
          | Some x => Some x
          | None => if decide (j = index) then Some e else None
          end
      end
  end.

(** Positions of the leaves. *)
Fixpoint leaf_indices node index : list Z :=
  match node with
  | NULL => []
  | Node _ l r =>
      if is_leaf l r then [index]
      else leaf_indices l (2 * index) ++ leaf_indices r (2 * index + 1)
  end.

(** A tree is complete when its nodes fill the positions [1..node_count]. *)
Definition complete (t : BinaryTree T) : Prop :=
  Forall (λ j, j ≤ node_count t) (indices (root t) 1).

(** The calls of the helper of [init_complete] as a relation: the tree
    that the call at [index] returns. *)
Inductive init_rel (elements : cells T) (n_elements : Z)
    : Z → BTNode T → Prop :=
| init_rel_end index :
    index > n_elements → init_rel elements n_elements index NULL
| init_rel_node index l r :
    index ≤ n_elements →
    init_rel elements n_elements (2 * index) l →
    init_rel elements n_elements (2 * index + 1) r →
    init_rel elements n_elements index (Node (elements index) l r).

(** ** Reference sequences of the three traversal orders *)

(** Node, then left subtree, then right subtree. *)
Fixpoint preorder_seq node : list T :=
  match node with
  | NULL => []
  | Node e l r => [e] ++ preorder_seq l ++ preorder_seq r
  end.

(** Left subtree, then node, then right subtree. *)
Fixpoint inorder_seq node : list T :=
  match node with
  | NULL => []
  | Node e l r => inorder_seq l ++ [e] ++ inorder_seq r
  end.

(** Left subtree, then right subtree, then node. *)
Fixpoint postorder_seq node : list T :=
  match node with
  | NULL => []
  | Node e l r => postorder_seq l ++ postorder_seq r ++ [e]
  end.

(** The visitor that records each element it is called on, in call order. *)
Definition record_visit (e : T) (seen : list T) : list T := seen ++ [e].

(** Running a visitor over a sequence of elements, first to last. *)
Definition visit_all {W : Type} (f : T → W → W) (es : list T) (w : W) : W :=
  fold_left (λ w e, f e w) es w.

(** The tree with every element paired with the position of its node. *)
Fixpoint tag node index : BTNode (Z * T) :=
  match node with
  | NULL => NULL
  | Node e l r => Node (index, e) (tag l (2 * index)) (tag r (2 * index + 1))
  end.

(** ** Structural equality *)

(** Identical shape, and corresponding elements related by [R]. *)
Inductive same_tree (R : T → T → Prop) : BTNode T → BTNode T → Prop :=
| same_NULL : same_tree R NULL NULL
| same_Node ea la ra eb lb rb :
    R ea eb →
    same_tree R la lb →
    same_tree R ra rb →
    same_tree R (Node ea la ra) (Node eb lb rb).

(** Two elements compare equal under [T]'s [operator==]. *)
Definition compares_equal (elem_eq : T → T → bool) (x y : T) : Prop :=
  elem_eq x y = true.

(** Identical shape alone. *)
Fixpoint same_shape a b : bool :=
  match a, b with
  | NULL, NULL => true
  | Node _ la ra, Node _ lb rb => same_shape la lb && same_shape ra rb
  | _, _ => false
  end.

End Specification.

(** ** Instances for the examples: [BinaryTree<int>] *)

(** [operator==] and [operator!=] of [int]. *)
Definition int_eq (x y : Z) : bool := x =? y.
Definition int_ne (x y : Z) : bool := negb (x =? y).

(** An array whose cells all hold [v]. *)
Definition filled (v : Z) : cells Z := λ _, v.

(** The array [_, 10, 20, 30, ...]. *)
Definition tens : cells Z := λ i, 10 * i.

(** A root [e] with the single child [x], on the right or on the left. *)
Definition right_only (e x : Z) : BinaryTree Z :=
  mkTree (Node e NULL (Node x NULL NULL)).
Definition left_only (e x : Z) : BinaryTree Z :=
  mkTree (Node e (Node x NULL NULL) NULL).

(** A chain of [k] nodes, each the right child of the one before; the
    elements count down to 1 at the deepest node. *)
Fixpoint right_chain (k : nat) : BTNode Z :=
  match k with
  | O => NULL
  | S k' => Node (Z.of_nat k) NULL (right_chain k')
  end.

(** The complete tree with root [e] and children [x] and [y]. *)
Definition three (e x y : Z) : BinaryTree Z :=
  mkTree (Node e (Node x NULL NULL) (Node y NULL NULL)).

(** * Releasing the nodes and printing *)

Section ReleaseAndPrint.

Context {T : Type}.

(** The helper [empty(node)].  Its effect is on the heap: [deleted] is
    the list of the nodes handed to [delete] so far, oldest first. *)
Fixpoint empty_rec (node : BTNode T) (deleted : list (BTNode T))
    : list (BTNode T) :=
  match node with
  | NULL => deleted
  | Node e l r =>
      if is_leaf l r then deleted ++ [Node e l r]
      else
        let deleted := empty_rec l deleted in
        empty_rec r deleted
  end.

(** [empty_this()]: the returned [bool], the tree it leaves and the nodes
    it deleted. *)
Definition empty_this (t : BinaryTree T) (deleted : list (BTNode T))
    : bool * BinaryTree T * list (BTNode T) :=
  let deleted := empty_rec (root t) deleted in
  (true, mkTree NULL, deleted).

(** [T]'s own [operator<<], as the text it writes. *)
Variable show : T → string.

(** [operator<<] on a stream and a pointer to a node; the stream is the
    text written to it so far. *)
Fixpoint operator_shl_node (out : string) (node : BTNode T) : string :=
  match node with
  | NULL => out
  | Node e l r =>
      let out := operator_shl_node out l in
      let out := out +:+ show e in
      let out := out +:+ " " in
      operator_shl_node out r
  end.

(** [operator<<] on a stream and a tree. *)
Definition operator_shl (out : string) (src : BinaryTree T) : string :=
  operator_shl_node out (root src).

(** The visitor that writes an element and a space to the stream (the
    shape of [func] in the test program). *)
Definition print_visit (e : T) (out : string) : string :=
  (out +:+ show e) +:+ " ".

(** The text of a sequence of elements, each followed by one space. *)
Definition spaced (es : list T) : string :=
  foldr (λ e text, show e +:+ " " +:+ text) "" es.

End ReleaseAndPrint.

(** * Display *)

(** The calls that [display] makes on the [PDF] object, which is not part
    of the sources: the page is the list of the calls received so far.
    [D] stands for [double]; the font argument of [selectfont] is always
    [Helvetica] and the colour is always [PDFColor(0.75)]. *)
Inductive pdf_call (D : Type) : Type :=
| new_page (annotation : string)
| selectfont_Helvetica (size : D)
| setcolor_nonstroke (gray : D)
| setlinewidth (width : D)
| moveto (x y : D)
| lineto (x y : D)
| stroke
| text_box (text : string) (x y margin r : D) (zero : Z) (font : D).

Arguments new_page {D}.
Arguments selectfont_Helvetica {D}.
Arguments setcolor_nonstroke {D}.
Arguments setlinewidth {D}.
Arguments moveto {D}.
Arguments lineto {D}.
Arguments stroke {D}.
Arguments text_box {D}.

(** [1 << k] on a 32-bit [int]: a shift count in [0 .. 31] is evaluated
    ([1 << 31] is [INT_MIN]); [None] is a negative count or one of 32 or
    more, where C++ leaves the shift undefined. *)
Definition shl_one (k : Z) : option Z :=
  if (0 <=? k) && (k <? 32) then Some (wrap_int (Z.shiftl 1 k)) else None.

Section Display.

Context {T D : Type}.

(** Arithmetic of [double], uninterpreted: the conversion from [int] and
    the four operations. *)
Variable of_int : Z → D.
Variables dadd dsub dmul ddiv : D → D → D.
(** The literal [0.75]. *)
Variable lit_0_75 : D.
(** The values of [pdf->get_width()/2] and of [pdf->get_height() - 72]. *)
Variables center_x top_y : D.
(** [T]'s own [operator<<], through the [ostringstream]. *)
Variable show : T → string.

Definition font_scale : D := of_int 20.
Definition level_sep : D := of_int 90.
Definition node_sep : D := of_int 30.
Definition node_box_margin : D := of_int 6.
Definition node_box_r : D := of_int 6.

(** The helper [display(pdf, node, leaf_dist, x, y, scale)]; [None] is a
    run that evaluates an undefined shift. *)
Fixpoint display_rec (node : BTNode T) (leaf_dist : Z) (x y scale : D)
    (pdf : list (pdf_call D)) : option (list (pdf_call D)) :=
  match node with
  | NULL => Some pdf
  | Node e l r =>
      pdf ←
        match l with
        | NULL => Some pdf
        | Node _ _ _ =>
            spread ← shl_one leaf_dist;
            let x_left :=
              dsub x (ddiv (dmul (dmul (of_int spread) node_sep) scale)
                           (of_int 2)) in
            let y_left := dsub y (dmul level_sep scale) in
            let pdf := pdf ++ [moveto x y; lineto x_left y_left; stroke] in
            display_rec l (leaf_dist - 1) x_left y_left scale pdf
        end;
      pdf ←
        match r with
        | NULL => Some pdf
        | Node _ _ _ =>
            spread ← shl_one leaf_dist;
            let x_right :=
              dadd x (ddiv (dmul (dmul (of_int spread) node_sep) scale)
                           (of_int 2)) in
            let y_right := dsub y (dmul level_sep scale) in
            let pdf := pdf ++ [moveto x y; lineto x_right y_right; stroke] in
            display_rec r (leaf_dist - 1) x_right y_right scale pdf
        end;
      Some (pdf ++ [text_box (show e) x y (dmul scale node_box_margin)
                      (dmul scale node_box_r) 0 (dmul scale font_scale)])
  end.

(** [display(pdf, annotation)]. *)
Definition display (t : BinaryTree T) (annotation : string)
    (pdf : list (pdf_call D)) : option (list (pdf_call D)) :=
  let h := height t in
  scale ←
    (if h >=? 4 then
       full ← shl_one h; Some (ddiv (of_int 16) (of_int full))
     else Some (of_int 1));
  let pdf := pdf ++ [new_page annotation] in
  let x := center_x in
  let y := top_y in
  let pdf := pdf ++ [selectfont_Helvetica (dmul font_scale scale)] in
  let pdf := pdf ++ [setcolor_nonstroke lit_0_75] in
  let pdf := pdf ++ [setlinewidth scale] in
  display_rec (root t) (h - 1) x y scale pdf.

End Display.

(** Reading a page: the text and the place of a box, the two ends of a
    line, and the strokes. *)
Definition box_text {D : Type} (c : pdf_call D) : option string :=
  match c with
  | text_box text _ _ _ _ _ _ => Some text
  | _ => None
  end.

Definition box_at {D : Type} (c : pdf_call D) : option (D * D) :=
  match c with
  | text_box _ x y _ _ _ _ => Some (x, y)
  | _ => None
  end.

Definition line_end {D : Type} (c : pdf_call D) : option (D * D) :=
  match c with
  | lineto x y => Some (x, y)
  | _ => None
  end.

Definition line_start {D : Type} (c : pdf_call D) : option (D * D) :=
  match c with
  | moveto x y => Some (x, y)
  | _ => None
  end.

Definition stroke_call {D : Type} (c : pdf_call D) : option unit :=
  match c with
  | stroke => Some ()
  | _ => None
  end.

(** The element of a node that exists. *)
Definition node_elem {T : Type} (node : BTNode T) : option T :=
  match node with
  | NULL => None
  | Node e _ _ => Some e
  end.

(** What drawing the subtree at [node], placed at [(x, y)], adds to the
    page: the boxes carry the elements in postorder; there is one stroke
    for every node but the subtree's root; every line starts and ends
    where a box is placed; and the subtree's root has its box at
    [(x, y)]. *)
Definition drawn {T D : Type} (show : T → string) (node : BTNode T) (x y : D)
    (added : list (pdf_call D)) : Prop :=
  omap box_text added = show <$> postorder_seq node ∧
  Z.of_nat (length (omap stroke_call added))
    + (if node_elem node is Some _ then 1 else 0) = node_count_rec node ∧
  (∀ p, p ∈ omap line_end added → p ∈ omap box_at added) ∧
  (∀ p, p ∈ omap line_start added → p ∈ omap box_at added) ∧
  (node ≠ NULL → (x, y) ∈ omap box_at added).

(** * Properties *)

(** ** Arithmetic of the numbering: children of [i] are [2i] and [2i+1] *)

Lemma under_refl i : under i i.
Proof.
  split; [lia|]. by rewrite Z.sub_diag, Z.shiftr_0_r.
Qed.

Lemma log2_left i : 1 ≤ i → Z.log2 (2 * i) = Z.log2 i + 1.
Proof. intros. rewrite Z.log2_double by lia. lia. Qed.

Lemma log2_right i : 1 ≤ i → Z.log2 (2 * i + 1) = Z.log2 i + 1.
Proof. intros. rewrite Z.log2_succ_double by lia. lia. Qed.

Lemma shiftr_one_left i : Z.shiftr (2 * i) 1 = i.
Proof.
  rewrite Z.shiftr_div_pow2 by lia. change (2 ^ 1) with 2.
  rewrite Z.mul_comm. apply Z.div_mul. lia.
Qed.

Lemma shiftr_one_right i : Z.shiftr (2 * i + 1) 1 = i.
Proof.
  rewrite Z.shiftr_div_pow2 by lia. change (2 ^ 1) with 2.
  rewrite Z.mul_comm, Z.div_add_l by lia. change (1 / 2) with 0. lia.
Qed.

Lemma under_left i j : 1 ≤ i → under (2 * i) j → under i j.
Proof.
  intros Hi [Hlog Hsh]. rewrite log2_left in Hlog, Hsh by done.
  split; [lia|].
  replace (Z.log2 j - Z.log2 i) with ((Z.log2 j - (Z.log2 i + 1)) + 1) by lia.
  rewrite <- Z.shiftr_shiftr by lia. rewrite Hsh. apply shiftr_one_left.
Qed.

Lemma under_right i j : 1 ≤ i → under (2 * i + 1) j → under i j.
Proof.
  intros Hi [Hlog Hsh]. rewrite log2_right in Hlog, Hsh by done.
  split; [lia|].
  replace (Z.log2 j - Z.log2 i) with ((Z.log2 j - (Z.log2 i + 1)) + 1) by lia.
  rewrite <- Z.shiftr_shiftr by lia. rewrite Hsh. apply shiftr_one_right.
Qed.

Lemma under_left_right i j : 1 ≤ i → under (2 * i) j → under (2 * i + 1) j → False.
Proof.
  intros Hi [_ Hl] [_ Hr]. rewrite log2_left in Hl by done.
  rewrite log2_right in Hr by done. lia.
Qed.

Lemma under_left_self i : 1 ≤ i → under (2 * i) i → False.
Proof. intros Hi [Hlog _]. rewrite log2_left in Hlog by done. lia. Qed.

Lemma under_right_self i : 1 ≤ i → under (2 * i + 1) i → False.
Proof. intros Hi [Hlog _]. rewrite log2_right in Hlog by done. lia. Qed.

Lemma under_ge i j : 1 ≤ i → under i j → i ≤ j.
Proof.
  intros Hi [Hlog Hsh].
  destruct (Z.le_gt_cases j 0) as [Hj|Hj].
  - rewrite (Z.log2_nonpos j) in Hlog by done.
    pose proof (Z.log2_nonneg i).
    assert (Z.log2 i = 0) as Hz by lia.
    destruct (Z.log2_null i) as [Hn _]. specialize (Hn Hz).
    assert (i = 1) by lia. subst i.
    rewrite (Z.log2_nonpos j), Z.sub_diag, Z.shiftr_0_r in Hsh by done. lia.
  - rewrite <- Hsh, Z.shiftr_div_pow2 by lia.
    apply Z.div_le_upper_bound; [apply Z.pow_pos_nonneg; lia|].
    assert (1 ≤ 2 ^ (Z.log2 j - Z.log2 i)) by (apply Z.pow_le_mono_r with (b := 0); lia).
    nia.
Qed.

(** ** The positions of a linked tree *)

Section Positions.

Context {T : Type}.
Implicit Types (node l r a b : BTNode T) (i j index max : Z) (st : flat_state T).

Lemma elem_of_indices_under node : ∀ index j,
  1 ≤ index → j ∈ indices node index → under index j.
Proof.
  induction node as [|e l IHl r IHr]; intros index j Hi Hj; simpl in Hj.
  - by apply elem_of_nil in Hj.
  - apply elem_of_cons in Hj as [->|Hj]; [apply under_refl|].
    apply elem_of_app in Hj as [Hj|Hj].
    + apply under_left; [done|]. apply IHl; [lia|done].
    + apply under_right; [done|]. apply IHr; [lia|done].
Qed.

Lemma elem_of_indices_ge node index j :
  1 ≤ index → j ∈ indices node index → index ≤ j.
Proof. intros Hi Hj. apply under_ge; [done|]. by eapply elem_of_indices_under. Qed.

Lemma indices_left_right l r index j :
  1 ≤ index → j ∈ indices l (2 * index) → j ∈ indices r (2 * index + 1) → False.
Proof.
  intros Hi Hl Hr. apply (under_left_right index j Hi).
  - eapply elem_of_indices_under; [lia|done].
  - eapply elem_of_indices_under; [lia|done].
Qed.

Lemma indices_left_self l index : 1 ≤ index → index ∈ indices l (2 * index) → False.
Proof.
  intros Hi Hl. apply (under_left_self index Hi).
  eapply elem_of_indices_under; [lia|done].
Qed.

Lemma indices_right_self r index :
  1 ≤ index → index ∈ indices r (2 * index + 1) → False.
Proof.
  intros Hi Hr. apply (under_right_self index Hi).
  eapply elem_of_indices_under; [lia|done].
Qed.

(** No two nodes of a tree share a position. *)
Lemma NoDup_indices node : ∀ index, 1 ≤ index → NoDup (indices node index).
Proof.
  induction node as [|e l IHl r IHr]; intros index Hi; simpl.
  - constructor.
  - apply NoDup_cons. split.
    + rewrite elem_of_app. intros [H|H].
      * by eapply indices_left_self.
      * by eapply indices_right_self.
    + apply NoDup_app. split_and!.
      * apply IHl; lia.
      * intros j Hl Hr. by eapply indices_left_right.
      * apply IHr; lia.
Qed.

Lemma length_indices node index :
  Z.of_nat (length (indices node index)) = node_count_rec node.
Proof.
  revert index. induction node as [|e l IHl r IHr]; intros index; simpl; [done|].
  rewrite length_app, Nat2Z.inj_succ, Nat2Z.inj_add, IHl, IHr. lia.
Qed.

Lemma elem_at_None node : ∀ index j,
  elem_at node index j = None ↔ j ∉ indices node index.
Proof.
  induction node as [|e l IHl r IHr]; intros index j; simpl.
  - split; [intros _; apply not_elem_of_nil|done].
  - rewrite not_elem_of_cons, not_elem_of_app, <- IHl, <- IHr.
    clear IHl IHr.
    destruct (elem_at r _ j), (elem_at l _ j), (decide (j = index));
      intuition congruence.
Qed.

Lemma elem_at_is_Some node index j :
  is_Some (elem_at node index j) ↔ j ∈ indices node index.
Proof.
  rewrite <- not_eq_None_Some, elem_at_None.
  split; [apply dec_stable|auto].
Qed.

Lemma elem_at_root e l r index :
  1 ≤ index → elem_at (Node e l r) index index = Some e.
Proof.
  intros Hi. simpl.
  destruct (elem_at r _ index) eqn:Hr.
  { exfalso. apply (indices_right_self r index Hi), elem_at_is_Some. by rewrite Hr. }
  destruct (elem_at l _ index) eqn:Hl.
  { exfalso. apply (indices_left_self l index Hi), elem_at_is_Some. by rewrite Hl. }
  by rewrite decide_True.
Qed.

Lemma elem_at_left e l r index j :
  1 ≤ index → j ∈ indices l (2 * index) →
  elem_at (Node e l r) index j = elem_at l (2 * index) j.
Proof.
  intros Hi Hj. simpl.
  destruct (elem_at r _ j) eqn:Hr.
  { exfalso. apply (indices_left_right l r index j Hi Hj), elem_at_is_Some.
    by rewrite Hr. }
  apply elem_at_is_Some in Hj as [x Hx]. by rewrite Hx.
Qed.

Lemma elem_at_right e l r index j :
  j ∈ indices r (2 * index + 1) →
  elem_at (Node e l r) index j = elem_at r (2 * index + 1) j.
Proof. intros Hj. simpl. apply elem_at_is_Some in Hj as [x Hx]. by rewrite Hx. Qed.

End Positions.

(** * What [to_flat_array] computes *)

Section FlatArray.

Context {T : Type}.
Implicit Types (node l r : BTNode T) (t : BinaryTree T) (elements : cells T)
  (i j index max : Z) (st : flat_state T).

Lemma fold_left_max_ge (js : list Z) : ∀ m,
  m ≤ fold_left Z.max js m ∧ ∀ j, j ∈ js → j ≤ fold_left Z.max js m.
Proof.
  induction js as [|k js IH]; intros m; simpl.
  - split; [lia|]. intros j Hj. by apply elem_of_nil in Hj.
  - destruct (IH (Z.max m k)) as [Hm Hjs]. split; [lia|].
    intros j [->|Hj]%elem_of_cons; [lia|auto].
Qed.

Lemma fold_left_max_elem (js : list Z) : ∀ m,
  fold_left Z.max js m = m ∨ fold_left Z.max js m ∈ js.
Proof.
  induction js as [|k js IH]; intros m; simpl; [by left|].
  destruct (IH (Z.max m k)) as [->|Hin].
  - destruct (Z.max_spec m k) as [[_ ->]|[_ ->]]; [right; left|by left].
  - right. by right.
Qed.

(** The [max_index] left by the helper is the running maximum over the
    positions it met. *)
Lemma to_flat_array_rec_max_index max node : ∀ index st,
  max_index_of (snd (to_flat_array_rec max node index st))
  = fold_left Z.max (indices node index) (max_index_of st).
Proof.
  induction node as [|e l IHl r IHr]; intros index st; simpl; [done|].
  rewrite IHr, IHl, fold_left_app. simpl. f_equal. f_equal.
  destruct (Z.gtb_spec index (max_index_of st)); lia.
Qed.

(** On a node that exists the helper returns the [max_index] it leaves. *)
Lemma to_flat_array_rec_ret max e l r index st :
  fst (to_flat_array_rec max (Node e l r) index st)
  = max_index_of (snd (to_flat_array_rec max (Node e l r) index st)).
Proof. done. Qed.

(** The cells left by the helper: a cell changes exactly when its index is
    a position of the tree that is not past [max], and then it holds the
    element at that position. *)
Lemma to_flat_array_rec_cells max node : ∀ index st j,
  elements_of (snd (to_flat_array_rec max node index st)) j
  = match elem_at node index j with
    | Some e => if j <=? max then e else elements_of st j
    | None => elements_of st j
    end.
Proof.
  induction node as [|e l IHl r IHr]; intros index st j; simpl; [done|].
  rewrite IHr, IHl. simpl. clear IHl IHr.
  destruct (elem_at r _ j), (elem_at l _ j), (Z.leb_spec j max),
    (Z.leb_spec index max), (decide (j = index)) as [->|Hne];
    try rewrite fn_lookup_insert;
    try (rewrite fn_lookup_insert_ne by congruence);
    done || lia.
Qed.

Lemma to_flat_array_cells t elements max j :
  snd (to_flat_array t elements max) j
  = match elem_at (root t) 1 j with
    | Some e => if j <=? max then e else elements j
    | None => elements j
    end.
Proof.
  unfold to_flat_array.
  destruct (to_flat_array_rec max (root t) 1 (mkFlat elements 1)) as [ret st] eqn:E.
  simpl. change st with (snd (ret, st)). rewrite <- E.
  by rewrite to_flat_array_rec_cells.
Qed.

Lemma to_flat_array_ret t elements max :
  fst (to_flat_array t elements max)
  = match root t with
    | NULL => 0
    | Node _ _ _ => fold_left Z.max (indices (root t) 1) 1
    end.
Proof.
  unfold to_flat_array.
  destruct (to_flat_array_rec max (root t) 1 (mkFlat elements 1)) as [ret st] eqn:E.
  simpl. change ret with (fst (ret, st)). rewrite <- E.
  destruct (root t) as [|e l r]; [done|].
  by rewrite to_flat_array_rec_ret, to_flat_array_rec_max_index.
Qed.

(** The positions a traversal from the root meets are positive. *)
Lemma elem_of_indices_root_pos t j : j ∈ indices (root t) 1 → 1 ≤ j.
Proof. by apply elem_of_indices_ge. Qed.

End FlatArray.

(** * What [init_complete] builds *)

Section InitComplete.

Context {T : Type}.
Variables (elements : cells T) (n_elements : Z).
Implicit Types (node l r : BTNode T) (i j index : Z).

Local Abbreviation built := (init_rel elements n_elements).

(** A result of the fuelled helper is a result of the C++ recursion. *)
Lemma init_complete_rec_built fuel : ∀ index node,
  init_complete_rec fuel elements n_elements index = Some node →
  built index node.
Proof.
  induction fuel as [|fuel IH]; intros index node; simpl; [done|].
  destruct (Z.gtb_spec index n_elements) as [Hgt|Hle].
  - intros [= <-]. apply init_rel_end. lia.
  - destruct (init_complete_rec fuel _ _ (2 * index)) as [l|] eqn:El; [|done].
    destruct (init_complete_rec fuel _ _ (2 * index + 1)) as [r|] eqn:Er; [|done].
    intros [= <-]. apply init_rel_node; auto.
Qed.

(** From a positive index the recursion ends: fuel beyond
    [n_elements - index + 1] is never used up. *)
Lemma init_complete_rec_total fuel : ∀ index,
  1 ≤ index → Z.max 0 (n_elements - index + 1) < Z.of_nat fuel →
  is_Some (init_complete_rec fuel elements n_elements index).
Proof.
  induction fuel as [|fuel IH]; intros index Hi Hfuel; simpl.
  - lia.
  - destruct (Z.gtb_spec index n_elements) as [Hgt|Hle]; [by eexists|].
    destruct (IH (2 * index)) as [l ->]; [lia..|].
    destruct (IH (2 * index + 1)) as [r ->]; [lia..|].
    by eexists.
Qed.

(** Started at a positive index, the recursion reads the cells
    [1..n_elements] of the array and no other. *)
Lemma init_complete_rec_reads (elements' : cells T) fuel : ∀ index,
  1 ≤ index →
  (∀ j, 1 ≤ j ≤ n_elements → elements j = elements' j) →
  init_complete_rec fuel elements n_elements index
  = init_complete_rec fuel elements' n_elements index.
Proof.
  induction fuel as [|fuel IH]; intros index Hi Hsame; simpl; [done|].
  destruct (Z.gtb_spec index n_elements) as [Hgt|Hle]; [done|].
  rewrite (IH (2 * index)), (IH (2 * index + 1)), (Hsame index) by (done || lia).
  done.
Qed.

(** The public [init_complete] always returns, with the tree of the
    recursion started at index 1. *)
Lemma init_complete_built :
  ∃ node, init_complete elements n_elements = Some (mkTree node) ∧ built 1 node.
Proof.
  unfold init_complete.
  destruct (init_complete_rec_total (init_fuel n_elements) 1) as [node Hnode].
  { lia. }
  { unfold init_fuel. lia. }
  exists node. rewrite Hnode. split; [done|].
  by eapply init_complete_rec_built.
Qed.

Lemma built_indices_le index node :
  built index node → 1 ≤ index → ∀ j, j ∈ indices node index → j ≤ n_elements.
Proof.
  induction 1 as [index Hgt|index l r Hle _ IHl _ IHr]; intros Hi j; simpl.
  - by intros ?%elem_of_nil.
  - rewrite elem_of_cons, elem_of_app. intros [->|[Hj|Hj]]; [done|..].
    + apply IHl; [lia|done].
    + apply IHr; [lia|done].
Qed.

(** Every node holds the array element of its own position. *)
Lemma built_elem_at index node :
  built index node → ∀ j e, elem_at node index j = Some e → e = elements j.
Proof.
  induction 1 as [index Hgt|index l r Hle _ IHl _ IHr]; intros j e; simpl; [done|].
  destruct (elem_at r _ j) eqn:Er; [intros [= <-]; by eapply IHr|].
  destruct (elem_at l _ j) eqn:El; [intros [= <-]; by eapply IHl|].
  destruct (decide (j = index)) as [->|]; [|done]. by intros [= <-].
Qed.

(** The children of an occupied position are occupied as far as the array
    reaches. *)
Lemma built_children index node :
  built index node → ∀ p, p ∈ indices node index →
  (2 * p ≤ n_elements → 2 * p ∈ indices node index) ∧
  (2 * p + 1 ≤ n_elements → 2 * p + 1 ∈ indices node index).
Proof.
  induction 1 as [index Hgt|index l r Hle Hl IHl Hr IHr]; intros p; simpl.
  - by intros ?%elem_of_nil.
  - rewrite !elem_of_cons, !elem_of_app.
    intros [->|[Hp|Hp]].
    + split; intros Hc; right.
      * left. inversion Hl; subst; [lia|]. simpl. left.
      * right. inversion Hr; subst; [lia|]. simpl. left.
    + destruct (IHl p Hp). split; intros; right; left; auto.
    + destruct (IHr p Hp). split; intros; right; right; auto.
Qed.

(** Every position of the array is occupied. *)
Lemma built_all node :
  built 1 node → ∀ j, 1 ≤ j ≤ n_elements → j ∈ indices node 1.
Proof.
  intros Hb j [Hj1 Hjn].
  assert (0 ≤ j) as Hj0 by lia. revert Hj1 Hjn. revert j Hj0.
  apply (Z_lt_induction (λ j, 1 ≤ j → j ≤ n_elements → j ∈ indices node 1)).
  intros j IH Hj1 Hjn.
  destruct (decide (j = 1)) as [->|Hne].
  { inversion Hb; subst; [lia|]. simpl. left. }
  assert (j = 2 * (j / 2) ∨ j = 2 * (j / 2) + 1) as Hpar.
  { pose proof (Z.div_mod j 2). pose proof (Z.mod_pos_bound j 2). lia. }
  assert (1 ≤ j / 2 < j) as [Hp1 Hpj].
  { split; [apply Z.div_le_lower_bound; lia|apply Z.div_lt; lia]. }
  destruct (built_children 1 node Hb (j / 2)) as [Hl Hr].
  { apply IH; lia. }
  destruct Hpar as [Hpar|Hpar]; rewrite Hpar; [apply Hl|apply Hr]; lia.
Qed.

(** Array construction fills exactly the positions [1..n_elements]. *)
Lemma built_indices node j :
  built 1 node → j ∈ indices node 1 ↔ 1 ≤ j ≤ n_elements.
Proof.
  intros Hb. split.
  - intros Hj. split.
    + by eapply (elem_of_indices_ge node 1).
    + by eapply built_indices_le.
  - by apply built_all.
Qed.

Lemma built_indices_seqZ node :
  built 1 node → indices node 1 ≡ₚ seqZ 1 n_elements.
Proof.
  intros Hb. apply NoDup_Permutation.
  - by apply NoDup_indices.
  - apply NoDup_seqZ.
  - intros j. rewrite built_indices, elem_of_seqZ by done. lia.
Qed.

Lemma built_node_count node :
  built 1 node → 0 ≤ n_elements → node_count_rec node = n_elements.
Proof.
  intros Hb Hn. rewrite <- (length_indices node 1).
  rewrite (built_indices_seqZ node Hb), length_seqZ. lia.
Qed.

End InitComplete.

(** * Height and leaves *)

Section Counting.

Context {T : Type}.
Implicit Types (node l r : BTNode T) (i j index : Z).

Lemma height_rec_nonneg node : 0 ≤ height_rec node.
Proof.
  induction node as [|e l IHl r IHr]; simpl; [done|].
  destruct (is_leaf l r); [lia|].
  destruct (Z.gtb_spec (height_rec l + 1) (height_rec r + 1)); lia.
Qed.

(** The three branches of [height] amount to one more than the higher
    child, a missing child counting 0. *)
Lemma height_rec_Node e l r :
  height_rec (Node e l r) = 1 + Z.max (height_rec l) (height_rec r).
Proof.
  pose proof (height_rec_nonneg l). pose proof (height_rec_nonneg r).
  simpl. destruct (is_leaf l r) eqn:Hleaf.
  - destruct l; [|done]. by destruct r.
  - destruct (Z.gtb_spec (height_rec l + 1) (height_rec r + 1)); lia.
Qed.



Lemma length_leaf_indices node index :
  Z.of_nat (length (leaf_indices node index)) = leaf_count_rec node.
Proof.
  revert index. induction node as [|e l IHl r IHr]; intros index; simpl; [done|].
  destruct (is_leaf l r); [done|].
  rewrite length_app, Nat2Z.inj_add, IHl, IHr. lia.
Qed.

Lemma log2_half m : 2 ≤ m → Z.log2 (m / 2) = Z.log2 m - 1.
Proof.
  intros Hm.
  replace (m / 2) with (Z.shiftr m 1) by (by rewrite Z.shiftr_div_pow2).
  rewrite Z.log2_shiftr by lia.
  pose proof (Z.log2_le_mono 2 m Hm) as Hlog. change (Z.log2 2) with 1 in Hlog.
  lia.
Qed.

(** The positions below [index] stay within the levels that the height
    allows. *)
Lemma indices_height_bound node : ∀ index j,
  1 ≤ index → j ∈ indices node index →
  1 ≤ height_rec node ∧ j + 1 ≤ (index + 1) * 2 ^ (height_rec node - 1).
Proof.
  induction node as [|e l IHl r IHr]; intros index j Hi Hj.
  { by apply elem_of_nil in Hj. }
  rewrite height_rec_Node.
  pose proof (height_rec_nonneg l) as Hl0. pose proof (height_rec_nonneg r) as Hr0.
  split; [lia|].
  replace (1 + height_rec l `max` height_rec r - 1)
    with (height_rec l `max` height_rec r) by lia.
  set (m := height_rec l `max` height_rec r).
  simpl in Hj. apply elem_of_cons in Hj as [->|Hj].
  - assert (1 ≤ 2 ^ m) by (apply (Z.pow_le_mono_r 2 0 m); lia). nia.
  - apply elem_of_app in Hj as [Hj|Hj].
    + destruct (IHl (2 * index) j) as [Hl1 Hb]; [lia|done|].
      assert (2 * 2 ^ (height_rec l - 1) ≤ 2 ^ m).
      { rewrite <- Z.pow_succ_r by lia. apply Z.pow_le_mono_r; lia. }
      assert (0 < 2 ^ (height_rec l - 1)) by (apply Z.pow_pos_nonneg; lia).
      nia.
    + destruct (IHr (2 * index + 1) j) as [Hr1 Hb]; [lia|done|].
      assert (2 * 2 ^ (height_rec r - 1) ≤ 2 ^ m).
      { rewrite <- Z.pow_succ_r by lia. apply Z.pow_le_mono_r; lia. }
      nia.
Qed.

(** The positions of the nodes of a tree of height at most 31 fit a
    32-bit [int].  (The index that [to_flat_array] computes for a missing
    child of a node on level 31 does not; the helper returns on a missing
    child without looking at its index.) *)
Lemma index_in_int_range (t : BinaryTree T) j :
  height t ≤ 31 → j ∈ indices (root t) 1 → 1 ≤ j < 2 ^ 31.
Proof.
  intros Hh Hj. split; [by eapply elem_of_indices_root_pos|].
  destruct (indices_height_bound (root t) 1 j) as [H1 Hb]; [done..|].
  unfold height in Hh.
  assert (2 * 2 ^ (height_rec (root t) - 1) ≤ 2 ^ 31).
  { rewrite <- Z.pow_succ_r by lia. apply Z.pow_le_mono_r; lia. }
  lia.
Qed.

Section Built.

Variables (elements : cells T) (n_elements : Z).
Local Abbreviation built := (init_rel elements n_elements).

(** Height of the subtree built at [index]: the number of levels between
    [index] and the end of the array. *)
Lemma built_height index node :
  built index node → 1 ≤ index →
  height_rec node
  = if index >? n_elements then 0 else Z.log2 (n_elements / index) + 1.
Proof.
  induction 1 as [index Hgt|index l r Hle _ IHl _ IHr]; intros Hi.
  - simpl. destruct (Z.gtb_spec index n_elements); [done|lia].
  - rewrite height_rec_Node, IHl, IHr by lia.
    destruct (Z.gtb_spec index n_elements) as [|_]; [lia|].
    destruct (Z.gtb_spec (2 * index) n_elements) as [Hl|Hl].
    + destruct (Z.gtb_spec (2 * index + 1) n_elements); [|lia].
      rewrite <- (Z.div_unique n_elements index 1 (n_elements - index)) by lia.
      done.
    + assert (Z.log2 (n_elements / (2 * index)) = Z.log2 (n_elements / index) - 1)
        as Hhalf.
      { rewrite (Z.mul_comm 2), <- Z.div_div by lia. apply log2_half.
        apply Z.div_le_lower_bound; lia. }
      pose proof (Z.log2_nonneg (n_elements / (2 * index))).
      destruct (Z.gtb_spec (2 * index + 1) n_elements) as [Hr|Hr]; [lia|].
      assert (Z.log2 (n_elements / (2 * index + 1))
              ≤ Z.log2 (n_elements / (2 * index))).
      { apply Z.log2_le_mono, Z.div_le_compat_l; lia. }
      lia.
Qed.




End Built.

End Counting.

(** * Array construction and array conversion *)

Section ArrayClaims.

Context {T : Type}.
Implicit Types (t : BinaryTree T) (elements out : cells T) (n j max : Z).





(** With the index in [Z], [to_flat_array] returns the largest
    complete-tree position of a node of the tree, and 0 for the empty
    tree, for every tree and every [max]. *)
Theorem to_flat_array_returns_max_index t elements max :
  let ret := fst (to_flat_array t elements max) in
  ret ∈ (if is_empty t then [0] else indices (root t) 1) ∧
  Forall (λ j, j ≤ ret) (indices (root t) 1).
Proof.
  simpl. rewrite to_flat_array_ret. unfold is_empty.
  destruct (root t) as [|e l r] eqn:Hroot.
  - split; [left|constructor].
  - rewrite <- Hroot. split.
    + destruct (fold_left_max_elem (indices (root t) 1) 1) as [->|Hin]; [|done].
      rewrite Hroot. left.
    + apply Forall_forall. intros j Hj.
      by apply (fold_left_max_ge (indices (root t) 1) 1).
Qed.

(** With the index in [Z], a cell whose index is not both within
    [1..max] and the position of a node keeps its value; so do cell 0 and
    every cell past [max]. *)
Theorem to_flat_array_frame t elements max j :
  ¬ (1 ≤ j ≤ max ∧ j ∈ indices (root t) 1) →
  snd (to_flat_array t elements max) j = elements j.
Proof.
  intros Hout. rewrite to_flat_array_cells.
  destruct (elem_at (root t) 1 j) as [e|] eqn:He; [|done].
  destruct (Z.leb_spec j max) as [Hle|]; [|done].
  destruct Hout. assert (j ∈ indices (root t) 1) as Hj.
  { apply elem_at_is_Some. by rewrite He. }
  split; [|done]. split; [|done]. by eapply elem_of_indices_root_pos.
Qed.

End ArrayClaims.

(** * Traversals *)

Section TraversalOrders.

Context {T : Type}.

Section Visitor.

Context {W : Type}.
Variable f : T → W → W.
Implicit Types (node : BTNode T) (w : W).

Lemma visit_all_app es1 es2 w :
  visit_all f (es1 ++ es2) w = visit_all f es2 (visit_all f es1 w).
Proof. apply fold_left_app. Qed.

Lemma preorder_rec_visit_all node : ∀ w,
  preorder_rec f node w = visit_all f (preorder_seq node) w.
Proof.
  induction node as [|e l IHl r IHr]; intros w; simpl; [done|].
  by rewrite IHl, IHr, (visit_all_app (preorder_seq l)).
Qed.

Lemma inorder_rec_visit_all node : ∀ w,
  inorder_rec f node w = visit_all f (inorder_seq node) w.
Proof.
  induction node as [|e l IHl r IHr]; intros w; simpl; [done|].
  by rewrite IHl, IHr, (visit_all_app (inorder_seq l)).
Qed.

Lemma postorder_rec_visit_all node : ∀ w,
  postorder_rec f node w = visit_all f (postorder_seq node) w.
Proof.
  induction node as [|e l IHl r IHr]; intros w; simpl; [done|].
  by rewrite IHl, IHr, !visit_all_app.
Qed.

End Visitor.

(** The recording visitor lists the calls it received. *)
Lemma visit_all_record (es seen : list T) :
  visit_all record_visit es seen = seen ++ es.
Proof.
  revert seen. unfold visit_all.
  induction es as [|e es IH]; intros seen; simpl.
  - by rewrite app_nil_r.
  - rewrite IH. unfold record_visit. by rewrite <- app_assoc.
Qed.

End TraversalOrders.

Section TaggedOrders.

Context {T : Type}.
Implicit Types (node : BTNode T) (index : Z).

Lemma preorder_seq_tag_fst node : ∀ index,
  (preorder_seq (tag node index)).*1 = indices node index.
Proof.
  induction node as [|e l IHl r IHr]; intros index; simpl; [done|].
  by rewrite fmap_app, IHl, IHr.
Qed.

Lemma inorder_seq_tag_fst node : ∀ index,
  (inorder_seq (tag node index)).*1 ≡ₚ indices node index.
Proof.
  induction node as [|e l IHl r IHr]; intros index; simpl; [done|].
  rewrite fmap_app, fmap_cons, IHl, IHr. simpl.
  by rewrite Permutation_middle.
Qed.

Lemma postorder_seq_tag_fst node : ∀ index,
  (postorder_seq (tag node index)).*1 ≡ₚ indices node index.
Proof.
  induction node as [|e l IHl r IHr]; intros index; simpl; [done|].
  rewrite !fmap_app, IHl, IHr. simpl.
  by rewrite app_assoc, <- Permutation_cons_append.
Qed.

Lemma preorder_seq_tag_snd node : ∀ index,
  (preorder_seq (tag node index)).*2 = preorder_seq node.
Proof.
  induction node as [|e l IHl r IHr]; intros index; simpl; [done|].
  by rewrite fmap_app, IHl, IHr.
Qed.

Lemma inorder_seq_tag_snd node : ∀ index,
  (inorder_seq (tag node index)).*2 = inorder_seq node.
Proof.
  induction node as [|e l IHl r IHr]; intros index; simpl; [done|].
  by rewrite fmap_app, fmap_cons, IHl, IHr.
Qed.

Lemma postorder_seq_tag_snd node : ∀ index,
  (postorder_seq (tag node index)).*2 = postorder_seq node.
Proof.
  induction node as [|e l IHl r IHr]; intros index; simpl; [done|].
  by rewrite !fmap_app, IHl, IHr.
Qed.

End TaggedOrders.

Section TraversalClaim.

Context {T W : Type}.

(** C8.  For every tree, every visitor and every state of the world,
    [preorder], [inorder] and [postorder] call the visitor on the elements
    in the reference sequence of their order (node, left, right; left,
    node, right; left, right, node).  The calls are one per node: run on
    the tree whose elements carry their node's position, a traversal meets
    the same elements, and the positions it meets are the positions of the
    tree, each once. *)
Theorem traversal_orders (f : T → W → W) (t : BinaryTree T) (w : W) :
  (preorder f t w = visit_all f (preorder_seq (root t)) w ∧
   inorder f t w = visit_all f (inorder_seq (root t)) w ∧
   postorder f t w = visit_all f (postorder_seq (root t)) w) ∧
  (preorder record_visit t [] = preorder_seq (root t) ∧
   inorder record_visit t [] = inorder_seq (root t) ∧
   postorder record_visit t [] = postorder_seq (root t)) ∧
  let tagged := mkTree (tag (root t) 1) in
  NoDup (indices (root t) 1) ∧
  ((preorder record_visit tagged []).*1 ≡ₚ indices (root t) 1 ∧
   (inorder record_visit tagged []).*1 ≡ₚ indices (root t) 1 ∧
   (postorder record_visit tagged []).*1 ≡ₚ indices (root t) 1) ∧
  ((preorder record_visit tagged []).*2 = preorder record_visit t [] ∧
   (inorder record_visit tagged []).*2 = inorder record_visit t [] ∧
   (postorder record_visit tagged []).*2 = postorder record_visit t []).
Proof.
  unfold preorder, inorder, postorder. simpl.
  rewrite !preorder_rec_visit_all, !inorder_rec_visit_all,
    !postorder_rec_visit_all, !visit_all_record. simpl.
  rewrite preorder_seq_tag_snd, inorder_seq_tag_snd, postorder_seq_tag_snd.
  split_and!; try done.
  - by apply NoDup_indices.
  - by rewrite preorder_seq_tag_fst.
  - apply inorder_seq_tag_fst.
  - apply postorder_seq_tag_fst.
Qed.

End TraversalClaim.

(** * Equality, copy and assignment *)

Section Shape.

Context {T : Type}.
Implicit Types (a b node l r : BTNode T) (i j index : Z) (R : T → T → Prop).

(** Below a node, the positions under its left child belong to the left
    subtree and all others do not. *)
Lemma elem_at_left_under e l r index j :
  1 ≤ index →
  elem_at l (2 * index) j
  = if decide (under (2 * index) j) then elem_at (Node e l r) index j else None.
Proof.
  intros Hi. destruct (decide (under (2 * index) j)) as [Hu|Hu].
  - destruct (elem_at l (2 * index) j) as [x|] eqn:Hl.
    + rewrite elem_at_left, Hl; [done..|].
      apply elem_at_is_Some. by rewrite Hl.
    + simpl. rewrite Hl.
      destruct (elem_at r (2 * index + 1) j) as [y|] eqn:Hr.
      { exfalso. apply (under_left_right index j Hi Hu).
        eapply elem_of_indices_under; [lia|]. apply elem_at_is_Some. by rewrite Hr. }
      destruct (decide (j = index)) as [->|]; [|done].
      by destruct (under_left_self index Hi).
  - apply elem_at_None. intros Hj. apply Hu.
    eapply elem_of_indices_under; [lia|done].
Qed.

Lemma elem_at_right_under e l r index j :
  1 ≤ index →
  elem_at r (2 * index + 1) j
  = if decide (under (2 * index + 1) j) then elem_at (Node e l r) index j
    else None.
Proof.
  intros Hi. destruct (decide (under (2 * index + 1) j)) as [Hu|Hu].
  - destruct (elem_at r (2 * index + 1) j) as [x|] eqn:Hr.
    + by rewrite elem_at_right, Hr; [|apply elem_at_is_Some; rewrite Hr].
    + simpl. rewrite Hr.
      destruct (elem_at l (2 * index) j) as [y|] eqn:Hl.
      { exfalso. apply (under_left_right index j Hi); [|done].
        eapply elem_of_indices_under; [lia|]. apply elem_at_is_Some. by rewrite Hl. }
      destruct (decide (j = index)) as [->|]; [|done].
      by destruct (under_right_self index Hi).
  - apply elem_at_None. intros Hj. apply Hu.
    eapply elem_of_indices_under; [lia|done].
Qed.

(** Trees with related elements at the same positions have the same shape
    and related elements. *)
Lemma elem_at_same_tree R a : ∀ b index,
  1 ≤ index →
  (∀ j, option_Forall2 R (elem_at a index j) (elem_at b index j)) →
  same_tree R a b.
Proof.
  induction a as [|ea la IHl ra IHr]; intros [|eb lb rb] index Hi Hat.
  - constructor.
  - specialize (Hat index). rewrite elem_at_root in Hat by done. inversion Hat.
  - specialize (Hat index). rewrite elem_at_root in Hat by done. inversion Hat.
  - constructor.
    + specialize (Hat index). rewrite !elem_at_root in Hat by done.
      by inversion Hat.
    + apply (IHl lb (2 * index)); [lia|]. intros j.
      rewrite (elem_at_left_under ea la ra), (elem_at_left_under eb lb rb) by done.
      destruct (decide (under (2 * index) j)); [apply Hat|constructor].
    + apply (IHr rb (2 * index + 1)); [lia|]. intros j.
      rewrite (elem_at_right_under ea la ra), (elem_at_right_under eb lb rb) by done.
      destruct (decide (under (2 * index + 1) j)); [apply Hat|constructor].
Qed.

Lemma same_tree_elem_at R a b :
  same_tree R a b → ∀ index j,
  option_Forall2 R (elem_at a index j) (elem_at b index j).
Proof.
  induction 1 as [|ea la ra eb lb rb He _ IHl _ IHr]; intros index j; simpl.
  - constructor.
  - destruct (IHr (2 * index + 1) j); [by constructor|].
    destruct (IHl (2 * index) j); [by constructor|].
    destruct (decide (j = index)); by constructor.
Qed.

Lemma same_tree_indices R a b :
  same_tree R a b → ∀ index, indices a index = indices b index.
Proof.
  induction 1 as [|ea la ra eb lb rb He _ IHl _ IHr]; intros index; simpl; [done|].
  by rewrite IHl, IHr.
Qed.

Lemma same_tree_node_count R a b :
  same_tree R a b → node_count_rec a = node_count_rec b.
Proof.
  intros Hs. rewrite <- (length_indices a 1), <- (length_indices b 1).
  by rewrite (same_tree_indices R a b Hs).
Qed.

Lemma same_tree_eq a b : same_tree eq a b ↔ a = b.
Proof.
  split.
  - induction 1; by subst.
  - intros <-. induction a; by constructor.
Qed.

(** A complete tree occupies exactly the positions [1..node_count]. *)
Lemma complete_indices (t : BinaryTree T) j :
  complete t → j ∈ indices (root t) 1 ↔ 1 ≤ j ≤ node_count t.
Proof.
  intros Hc.
  assert (indices (root t) 1 ≡ₚ seqZ 1 (node_count t)) as Hperm.
  { apply submseteq_length_Permutation.
    - apply NoDup_submseteq; [by apply NoDup_indices|].
      intros k Hk. apply elem_of_seqZ. split.
      + by eapply elem_of_indices_root_pos.
      + unfold complete in Hc. rewrite Forall_forall in Hc.
        specialize (Hc k Hk). lia.
    - rewrite length_seqZ. unfold node_count.
      rewrite <- (length_indices (root t) 1). lia. }
  rewrite Hperm, elem_of_seqZ. lia.
Qed.

(** Array construction builds a complete tree. *)
Lemma built_complete (elements : cells T) n node :
  init_rel elements n 1 node → complete (mkTree node).
Proof.
  intros Hb. unfold complete. apply Forall_forall. intros j Hj. simpl in *.
  assert (1 ≤ j ≤ n) as Hjn by by apply (built_indices elements n node j Hb).
  unfold node_count. simpl. rewrite (built_node_count elements n node Hb); lia.
Qed.

End Shape.

Section Equality.

Context {T : Type}.
Variables elem_eq elem_ne : T → T → bool.
Implicit Types (a b node : BTNode T) (this src t : BinaryTree T)
  (thisNew srcNew : cells T) (i j : Z).

(** ** The recursive copy of [BinaryTree.cpp] *)

Lemma compare_same_tree a : ∀ b,
  compare elem_eq a b = true ↔ same_tree (compares_equal elem_eq) a b.
Proof.
  induction a as [|ea la IHl ra IHr]; intros [|eb lb rb]; simpl.
  - split; [constructor|done].
  - split; [done|inversion 1].
  - split; [done|inversion 1].
  - destruct (elem_eq ea eb) eqn:He.
    + rewrite andb_true_iff, IHl, IHr. split.
      * intros [??]. by constructor.
      * inversion 1; by subst.
    + split; [done|]. inversion 1; subst. unfold compares_equal in *. congruence.
Qed.

(** The null tests before [compare] do not change its answer. *)
Lemma operator_eq_cpp_compare this src :
  operator_eq_cpp elem_eq this src = compare elem_eq (root this) (root src).
Proof. unfold operator_eq_cpp. by destruct (root this), (root src). Qed.

(** [operator==] of [BinaryTree.cpp] is structural equality, on every pair
    of trees. *)
Lemma operator_eq_cpp_same_tree this src :
  operator_eq_cpp elem_eq this src = true
  ↔ same_tree (compares_equal elem_eq) (root this) (root src).
Proof. rewrite operator_eq_cpp_compare. apply compare_same_tree. Qed.

Lemma operator_ne_cpp_negb this src :
  operator_ne_cpp elem_eq this src = negb (operator_eq_cpp elem_eq this src).
Proof. done. Qed.

Lemma clone_id node : clone node = node.
Proof. induction node as [|e l IHl r IHr]; simpl; congruence. Qed.

(** Copy and assignment of [BinaryTree.cpp] reproduce the source, whatever
    its shape. *)
Lemma copy_cpp_id src : copy_cpp src = src.
Proof. unfold copy_cpp. rewrite clone_id. by destruct src. Qed.

Lemma assign_cpp_id this src : assign_cpp this src = src.
Proof. unfold assign_cpp. rewrite clone_id. by destruct src. Qed.

(** ** The flat-array copy of [BinaryTree.h], on complete trees *)

Lemma compare_cells_loop_true count : ∀ i thisElem srcElem,
  compare_cells_loop elem_ne count i thisElem srcElem = true
  ↔ ∀ j, i ≤ j < i + Z.of_nat count → elem_ne (thisElem j) (srcElem j) = false.
Proof.
  induction count as [|count IH]; intros i A B; simpl.
  - split; [lia|done].
  - destruct (elem_ne (A i) (B i)) eqn:Hi.
    + split; [done|]. intros Hall. rewrite Hall in Hi; [done|lia].
    + rewrite IH. split.
      * intros Hall j Hj. destruct (decide (j = i)) as [->|]; [done|].
        apply Hall. lia.
      * intros Hall j Hj. apply Hall. lia.
Qed.

(** Flattening a complete tree with [max = node_count] writes every node. *)
Lemma to_flat_array_complete t srcNew j :
  complete t → 1 ≤ j ≤ node_count t →
  elem_at (root t) 1 j = Some (snd (to_flat_array t srcNew (node_count t)) j).
Proof.
  intros Hc Hj. rewrite to_flat_array_cells.
  destruct (elem_at (root t) 1 j) as [e|] eqn:He.
  - destruct (Z.leb_spec j (node_count t)); [done|lia].
  - apply elem_at_None in He. destruct He. by apply complete_indices.
Qed.

Lemma elem_at_complete_None t j :
  complete t → ¬ (1 ≤ j ≤ node_count t) → elem_at (root t) 1 j = None.
Proof. intros Hc Hj. apply elem_at_None. by rewrite complete_indices. Qed.

(** The copy constructor of [BinaryTree.h] reproduces a complete source. *)
Lemma copy_h_complete src srcNew : complete src → copy_h src srcNew = Some src.
Proof.
  intros Hc. unfold copy_h.
  set (srcEle := snd (to_flat_array src srcNew (node_count src))).
  destruct (init_complete_built srcEle (node_count src)) as (node & -> & Hb).
  assert (node = root src) as ->; [|by destruct src].
  apply same_tree_eq, (elem_at_same_tree eq node (root src) 1); [done|]. intros j.
  destruct (decide (1 ≤ j ≤ node_count src)) as [Hj|Hj].
  - rewrite (to_flat_array_complete src srcNew j Hc Hj). fold srcEle.
    assert (is_Some (elem_at node 1 j)) as [e He].
    { apply elem_at_is_Some. by apply (built_indices srcEle _ node j Hb). }
    rewrite He. apply (built_elem_at srcEle _ 1 node Hb) in He as ->.
    by constructor.
  - rewrite (elem_at_complete_None src j Hc Hj).
    replace (elem_at node 1 j) with (@None T); [constructor|].
    symmetry. apply elem_at_None. by rewrite (built_indices srcEle _ node j Hb).
Qed.

Lemma assign_h_complete this src srcNew :
  complete src → assign_h this src srcNew = Some src.
Proof. apply copy_h_complete. Qed.

(** The two defects hide each other: when the fresh arrays of the copy
    constructor and of [operator==] hold the same contents, the cell left
    unwritten by the one is read back unwritten by the other, and
    [operator==] of [BinaryTree.h] finds the copy equal to its source, of
    whatever shape. *)
Lemma copy_h_operator_eq_h_same_new src srcNew :
  (∀ x, elem_ne x x = false) →
  ∃ copy, copy_h src srcNew = Some copy ∧
          operator_eq_h elem_ne copy src srcNew srcNew = true.
Proof.
  intros Hrefl. unfold copy_h.
  set (srcEle := snd (to_flat_array src srcNew (node_count src))).
  destruct (init_complete_built srcEle (node_count src)) as (node & -> & Hb).
  exists (mkTree node). split; [done|].
  assert (0 ≤ node_count src) as Hn.
  { unfold node_count. rewrite <- (length_indices (root src) 1). lia. }
  unfold operator_eq_h.
  replace (node_count (mkTree node)) with (node_count src)
    by (symmetry; by apply (built_node_count srcEle)).
  rewrite Z.eqb_refl. simpl. apply compare_cells_loop_true. intros j Hj.
  fold srcEle. rewrite to_flat_array_cells. simpl.
  assert (is_Some (elem_at node 1 j)) as [e He].
  { apply elem_at_is_Some, (built_indices srcEle _ node j Hb). lia. }
  rewrite He. apply (built_elem_at srcEle _ 1 node Hb) in He as ->.
  destruct (Z.leb_spec j (node_count src)); [apply Hrefl|lia].
Qed.

Hypothesis elem_ne_negb : ∀ x y, elem_ne x y = negb (elem_eq x y).

(** On complete trees [operator==] of [BinaryTree.h] is structural
    equality, whatever the fresh arrays held. *)
Lemma operator_eq_h_complete this src thisNew srcNew :
  complete this → complete src →
  operator_eq_h elem_ne this src thisNew srcNew = true
  ↔ same_tree (compares_equal elem_eq) (root this) (root src).
Proof.
  intros Hthis Hsrc. unfold operator_eq_h.
  destruct (Z.eqb_spec (node_count this) (node_count src)) as [Hn|Hn]; simpl.
  - rewrite compare_cells_loop_true. split.
    + intros Hall. apply (elem_at_same_tree _ _ _ 1); [done|]. intros j.
      destruct (decide (1 ≤ j ≤ node_count this)) as [Hj|Hj].
      * rewrite (to_flat_array_complete this thisNew j),
          (to_flat_array_complete src srcNew j) by (done || lia).
        constructor. unfold compares_equal.
        specialize (Hall j). rewrite elem_ne_negb in Hall.
        apply negb_false_iff, Hall. lia.
      * rewrite !elem_at_complete_None by (done || lia). constructor.
    + intros Hsame j Hj.
      pose proof (same_tree_elem_at _ _ _ Hsame 1 j) as Hat.
      rewrite (to_flat_array_complete this thisNew j),
        (to_flat_array_complete src srcNew j) in Hat by (done || lia).
      inversion Hat as [x y Hxy|]; subst.
      rewrite elem_ne_negb. by apply negb_false_iff.
  - split; [done|]. intros Hsame. destruct Hn.
    by apply (same_tree_node_count (compares_equal elem_eq)).
Qed.

End Equality.

Section EqualityClaims.

Context {T : Type}.
Variables elem_eq elem_ne : T → T → bool.
Implicit Types (this src : BinaryTree T) (thisNew srcNew : cells T).

(** For every pair of complete trees, and whatever the fresh arrays
    hold, the flat-array [operator==] of [BinaryTree.h] returns what the
    recursive [operator==] of [BinaryTree.cpp] returns, [T]'s
    [operator!=] being the negation of its [operator==]. *)
Theorem operator_eq_h_cpp_complete this src thisNew srcNew :
  (∀ x y, elem_ne x y = negb (elem_eq x y)) →
  complete this → complete src →
  operator_eq_h elem_ne this src thisNew srcNew = operator_eq_cpp elem_eq this src.
Proof.
  intros Hne Hthis Hsrc. apply eq_true_iff_eq.
  rewrite (operator_eq_h_complete elem_eq elem_ne Hne) by done.
  by rewrite operator_eq_cpp_same_tree.
Qed.

(** Where the flat-array [operator==] goes wrong, for a class type [T]
    whose fresh arrays hold the default value [d]: the right child of the
    root sits at position 3, past [node_count = 2], so its element never
    reaches the arrays and is not compared. *)
Lemma operator_eq_h_right_child_ignored (d e x y : T) :
  elem_ne e e = false → elem_ne d d = false →
  operator_eq_h elem_ne
    (mkTree (Node e NULL (Node x NULL NULL)))
    (mkTree (Node e NULL (Node y NULL NULL))) (λ _, d) (λ _, d) = true.
Proof.
  intros He Hd. unfold operator_eq_h, node_count. simpl.
  unfold to_flat_array. simpl.
  rewrite !fn_lookup_insert, He. by rewrite !fn_lookup_insert_ne, Hd.
Qed.

End EqualityClaims.

(** * Examples on [BinaryTree<int>] *)

(** The example of the specification: the tree built from [_, 10, 20, 30]. *)
Example init_complete_tens : init_complete tens 3 = Some (three 10 20 30).
Proof. reflexivity. Qed.

Example three_queries :
  height (three 10 20 30) = 2 ∧ leaf_count (three 10 20 30) = 2 ∧
  node_count (three 10 20 30) = 3.
Proof. by vm_compute. Qed.

Example three_traversals :
  preorder record_visit (three 10 20 30) [] = [10; 20; 30] ∧
  inorder record_visit (three 10 20 30) [] = [20; 10; 30] ∧
  postorder record_visit (three 10 20 30) [] = [20; 30; 10].
Proof. by vm_compute. Qed.

Example height_empty_and_leaf (e : Z) :
  height (@empty_tree Z) = 0 ∧ height (mkTree (Node e NULL NULL)) = 1.
Proof. done. Qed.

Lemma three_complete e x y : complete (three e x y).
Proof. unfold complete. simpl. repeat constructor; unfold node_count; simpl; lia. Qed.

Lemma int_ne_negb x y : int_ne x y = negb (int_eq x y).
Proof. reflexivity. Qed.

(** C1, the defect.  [operator==] of [BinaryTree.h] flattens both trees
    into arrays of [node_count + 1] cells.  A node whose position is past
    [node_count] is not written, and the cell of an empty position keeps
    what the fresh array held.  With fresh arrays that hold 0:
    two trees that differ in an element compare equal; two trees of equal
    node count and different shape compare equal; and with fresh arrays
    that differ, a tree compares unequal to itself.  [operator==] of
    [BinaryTree.cpp] answers each of the three correctly. *)
Theorem operator_eq_h_incomplete_trees :
  (operator_eq_h int_ne (right_only 1 2) (right_only 1 3) (filled 0) (filled 0)
     = true ∧
   operator_eq_cpp int_eq (right_only 1 2) (right_only 1 3) = false ∧
   ¬ same_tree (compares_equal int_eq)
       (root (right_only 1 2)) (root (right_only 1 3))) ∧
  (operator_eq_h int_ne (left_only 1 0) (right_only 1 5) (filled 0) (filled 0)
     = true ∧
   operator_ne_h int_ne (left_only 1 0) (right_only 1 5) (filled 0) (filled 0)
     = false ∧
   operator_eq_cpp int_eq (left_only 1 0) (right_only 1 5) = false ∧
   node_count (left_only 1 0) = node_count (right_only 1 5) ∧
   same_shape (root (left_only 1 0)) (root (right_only 1 5)) = false) ∧
  (operator_eq_h int_ne (right_only 1 2) (right_only 1 2) (filled 0) (filled 7)
     = false ∧
   operator_eq_cpp int_eq (right_only 1 2) (right_only 1 2) = true).
Proof.
  split_and!; try by vm_compute.
  rewrite <- operator_eq_cpp_same_tree. by vm_compute.
Qed.

(** C2, the defect.  The copy constructor and [operator=] of
    [BinaryTree.h] rebuild the tree from the flat array as a complete
    tree.  The copy of a root with only a right child has a left child
    instead, holding whatever the fresh array held in cell 2: it is not
    structurally equal to its source, and [operator==] of [BinaryTree.h]
    itself returns false on the two when its own fresh arrays differ
    there.  Copy and assignment of [BinaryTree.cpp] return the source. *)
Theorem copy_h_incomplete_tree (srcNew : cells Z) :
  copy_h (right_only 1 2) srcNew = Some (left_only 1 (srcNew 2)) ∧
  assign_h empty_tree (right_only 1 2) srcNew = Some (left_only 1 (srcNew 2)) ∧
  operator_eq_cpp int_eq (left_only 1 (srcNew 2)) (right_only 1 2) = false ∧
  operator_eq_h int_ne (left_only 1 0) (right_only 1 2) (filled 0) (filled 7)
    = false ∧
  copy_cpp (right_only 1 2) = right_only 1 2 ∧
  assign_cpp empty_tree (right_only 1 2) = right_only 1 2.
Proof. split_and!; reflexivity. Qed.

(** C10, the defect.  The two copies of the class are not equivalent: on
    two trees that differ in the element of a node past position
    [node_count], the flat-array [operator==] of [BinaryTree.h] returns
    true and the recursive [operator==] of [BinaryTree.cpp] returns
    false. *)
Lemma operator_eq_h_cpp_differ :
  operator_eq_h int_ne (right_only 1 2) (right_only 1 3) (filled 0) (filled 0)
  ≠ operator_eq_cpp int_eq (right_only 1 2) (right_only 1 3).
Proof. by vm_compute. Qed.

Lemma operator_eq_h_cpp_complete_witness :
  (∀ x y, int_ne x y = negb (int_eq x y)) ∧
  complete (three 10 20 30) ∧ complete (three 10 20 31) ∧
  operator_eq_h int_ne (three 10 20 30) (three 10 20 31) (filled 0) (filled 7)
  = operator_eq_cpp int_eq (three 10 20 30) (three 10 20 31).
Proof.
  split_and!; [apply int_ne_negb|apply three_complete..|].
  apply (operator_eq_h_cpp_complete int_eq int_ne);
    [apply int_ne_negb|apply three_complete..].
Defined.





Lemma to_flat_array_frame_witness :
  ¬ (1 ≤ 3 ≤ 2 ∧ 3 ∈ indices (root (three 10 20 30)) 1) ∧
  snd (to_flat_array (three 10 20 30) (filled 0) 2) 3 = filled 0 3.
Proof.
  assert (¬ (1 ≤ 3 ≤ 2 ∧ 3 ∈ indices (root (three 10 20 30)) 1)) as Hout by lia.
  split; [exact Hout|].
  exact (to_flat_array_frame (three 10 20 30) (filled 0) 2 3 Hout).
Defined.

(** * Further properties of the queries *)

Section Queries.

Context {T : Type}.
Implicit Types (node l r : BTNode T) (t : BinaryTree T) (index j : Z).

Lemma node_count_rec_nonneg node : 0 ≤ node_count_rec node.
Proof. rewrite <- (length_indices node 1). lia. Qed.

Lemma leaf_count_rec_nonneg node : 0 ≤ leaf_count_rec node.
Proof. rewrite <- (length_leaf_indices node 1). lia. Qed.

Lemma leaf_count_rec_pos node : node ≠ NULL → 1 ≤ leaf_count_rec node.
Proof.
  induction node as [|e l IHl r IHr]; intros Hne; [done|]. simpl.
  destruct (is_leaf l r) eqn:Hleaf; [done|].
  pose proof (leaf_count_rec_nonneg l). pose proof (leaf_count_rec_nonneg r).
  destruct l as [|el ll lr].
  - destruct r as [|er rl rr]; [done|].
    assert (1 ≤ leaf_count_rec (Node er rl rr)) by by apply IHr. lia.
  - assert (1 ≤ leaf_count_rec (Node el ll lr)) by by apply IHl. lia.
Qed.

Lemma leaf_count_rec_bounds node :
  leaf_count_rec node ≤ 2 ^ (height_rec node - 1) ∧
  2 * leaf_count_rec node ≤ node_count_rec node + 1.
Proof.
  induction node as [|e l [IHl1 IHl2] r [IHr1 IHr2]]; [done|].
  rewrite height_rec_Node. simpl leaf_count_rec. simpl node_count_rec.
  replace (1 + height_rec l `max` height_rec r - 1)
    with (height_rec l `max` height_rec r) by lia.
  pose proof (height_rec_nonneg l) as Hl0. pose proof (height_rec_nonneg r) as Hr0.
  destruct (is_leaf l r) eqn:Hleaf.
  - destruct l; [|done]. destruct r; [|done]. done.
  - split; [|lia].
    set (m := height_rec l `max` height_rec r) in *.
    assert (1 ≤ m) as Hm.
    { destruct l as [|el ll lr].
      - destruct r as [|er rl rr]; [done|]. subst m.
        rewrite (height_rec_Node er rl rr).
        pose proof (height_rec_nonneg rl). pose proof (height_rec_nonneg rr). lia.
      - subst m. rewrite (height_rec_Node el ll lr).
        pose proof (height_rec_nonneg ll). pose proof (height_rec_nonneg lr). lia. }
    assert (∀ h, h ≤ m → 2 * 2 ^ (h - 1) ≤ 2 ^ m) as Hhalf.
    { intros h Hh. destruct (Z.le_gt_cases h 0) as [Hneg|Hpos].
      - assert (2 ^ (h - 1) = 0) as -> by (apply Z.pow_neg_r; lia).
        assert (0 < 2 ^ m) by (apply Z.pow_pos_nonneg; lia). lia.
      - rewrite <- Z.pow_succ_r by lia. apply Z.pow_le_mono_r; lia. }
    pose proof (Hhalf (height_rec l) ltac:(lia)).
    pose proof (Hhalf (height_rec r) ltac:(lia)). lia.
Qed.

(** The deepest level of a tree is inhabited. *)
Lemma indices_deepest node : ∀ index,
  1 ≤ index → node ≠ NULL →
  ∃ j, j ∈ indices node index ∧ index * 2 ^ (height_rec node - 1) ≤ j.
Proof.
  induction node as [|e l IHl r IHr]; intros index Hi Hne; [done|].
  rewrite height_rec_Node.
  replace (1 + height_rec l `max` height_rec r - 1)
    with (height_rec l `max` height_rec r) by lia.
  pose proof (height_rec_nonneg l) as Hl0. pose proof (height_rec_nonneg r) as Hr0.
  simpl indices.
  destruct (Z.max_spec (height_rec l) (height_rec r)) as [[Hlt ->]|[Hge ->]].
  - destruct r as [|er rl rr]; [simpl in Hlt; lia|].
    destruct (IHr (2 * index + 1)) as (j & Hj & Hb); [lia|done|].
    exists j. split; [rewrite elem_of_cons, elem_of_app; auto|].
    set (h := height_rec (Node er rl rr)) in *.
    assert (1 ≤ h).
    { subst h. rewrite height_rec_Node.
      pose proof (height_rec_nonneg rl). pose proof (height_rec_nonneg rr). lia. }
    assert (2 ^ h = 2 * 2 ^ (h - 1)) as Hp.
    { rewrite <- Z.pow_succ_r by lia. f_equal. lia. }
    assert (0 < 2 ^ (h - 1)) by (apply Z.pow_pos_nonneg; lia). nia.
  - destruct l as [|el ll lr].
    + assert (height_rec r = 0) as Hr by (simpl in Hge; lia).
      exists index. split; [left|]. simpl. lia.
    + destruct (IHl (2 * index)) as (j & Hj & Hb); [lia|done|].
      exists j. split; [rewrite elem_of_cons, elem_of_app; auto|].
      set (h := height_rec (Node el ll lr)) in *.
      assert (1 ≤ h).
      { subst h. rewrite height_rec_Node.
        pose proof (height_rec_nonneg ll). pose proof (height_rec_nonneg lr). lia. }
      assert (2 ^ h = 2 * 2 ^ (h - 1)) as Hp.
      { rewrite <- Z.pow_succ_r by lia. f_equal. lia. }
      nia.
Qed.

End Queries.

Section QueryProperties.

Context {T : Type}.
Implicit Types (t : BinaryTree T) (elements : cells T) (max j : Z).

(** X1.  The four queries agree on emptiness: [is_empty] holds exactly
    when [node_count] is 0, when [height] is 0, and when [leaf_count]
    is 0. *)
Theorem is_empty_queries t :
  (is_empty t = true ↔ node_count t = 0) ∧
  (is_empty t = true ↔ height t = 0) ∧
  (is_empty t = true ↔ leaf_count t = 0).
Proof.
  unfold is_empty, node_count, height, leaf_count.
  destruct (root t) as [|e l r] eqn:Hroot; [done|].
  pose proof (node_count_rec_nonneg l). pose proof (node_count_rec_nonneg r).
  pose proof (height_rec_nonneg l). pose proof (height_rec_nonneg r).
  pose proof (leaf_count_rec_pos (Node e l r) ltac:(done)).
  rewrite height_rec_Node. simpl node_count_rec.
  split_and!; split; (done || lia).
Qed.

(** X2.  On every tree, [height <= node_count <= 2 ^ height - 1]. *)
Theorem height_node_count t :
  height t ≤ node_count t ≤ 2 ^ height t - 1.
Proof.
  unfold height, node_count. generalize (root t). clear t. intros node.
  induction node as [|e l IHl r IHr]; [done|].
  rewrite height_rec_Node. simpl node_count_rec.
  pose proof (height_rec_nonneg l). pose proof (height_rec_nonneg r).
  split; [lia|].
  rewrite Z.pow_add_r by lia. change (2 ^ 1) with 2.
  assert (2 ^ height_rec l ≤ 2 ^ (height_rec l `max` height_rec r))
    by (apply Z.pow_le_mono_r; lia).
  assert (2 ^ height_rec r ≤ 2 ^ (height_rec l `max` height_rec r))
    by (apply Z.pow_le_mono_r; lia).
  lia.
Qed.

(** X3.  On every tree, [leaf_count] is at most [2 ^ (height - 1)] and at
    most half of [node_count + 1], and it is at least 1 unless the tree
    is empty. *)
Theorem leaf_count_bounds t :
  leaf_count t ≤ 2 ^ (height t - 1) ∧
  2 * leaf_count t ≤ node_count t + 1 ∧
  (if is_empty t then 0 else 1) ≤ leaf_count t.
Proof.
  unfold leaf_count, height, node_count, is_empty.
  destruct (leaf_count_rec_bounds (root t)) as [H1 H2].
  split_and!; [done..|].
  destruct (root t) as [|e l r] eqn:Hroot; [done|].
  by apply leaf_count_rec_pos.
Qed.

(** With the index in [Z], the value that [to_flat_array] returns on a
    tree that is not empty lies on the deepest level: [height] is [log2]
    of it plus 1. *)
Theorem height_to_flat_array t elements max :
  is_empty t = false →
  height t = Z.log2 (fst (to_flat_array t elements max)) + 1.
Proof.
  intros Hne. unfold is_empty in Hne.
  rewrite to_flat_array_ret. unfold height.
  destruct (root t) as [|e l r] eqn:Hroot; [done|]. rewrite <- Hroot.
  assert (root t ≠ NULL) as Hnn by (by rewrite Hroot).
  set (ret := fold_left Z.max (indices (root t) 1) 1).
  assert (1 ≤ height_rec (root t)) as Hh.
  { rewrite Hroot, height_rec_Node.
    pose proof (height_rec_nonneg l). pose proof (height_rec_nonneg r). lia. }
  assert (2 ^ (height_rec (root t) - 1) ≤ ret) as Hlow.
  { destruct (indices_deepest (root t) 1) as (j & Hj & Hb); [done..|].
    pose proof (proj2 (fold_left_max_ge (indices (root t) 1) 1) j Hj). lia. }
  assert (ret < 2 ^ height_rec (root t)) as Hup.
  { assert (ret ∈ indices (root t) 1) as Hin.
    { destruct (fold_left_max_elem (indices (root t) 1) 1) as [Heq|Hin]; [|done].
      fold ret in Heq. rewrite Heq, Hroot. left. }
    destruct (indices_height_bound (root t) 1 ret) as [_ Hb]; [done..|].
    replace (2 ^ height_rec (root t)) with (2 * 2 ^ (height_rec (root t) - 1)).
    - lia.
    - rewrite <- Z.pow_succ_r by lia. f_equal. lia. }
  assert (Z.log2 ret = height_rec (root t) - 1) as ->; [|lia].
  apply Z.log2_unique; [lia|].
  replace (Z.succ (height_rec (root t) - 1)) with (height_rec (root t)) by lia.
  lia.
Qed.

End QueryProperties.

Lemma height_to_flat_array_witness :
  is_empty (right_only 1 2) = false ∧
  height (right_only 1 2)
  = Z.log2 (fst (to_flat_array (right_only 1 2) (filled 0) 0)) + 1.
Proof.
  split; [reflexivity|].
  apply (height_to_flat_array (right_only 1 2) (filled 0) 0). reflexivity.
Defined.

(** * Further properties of array construction and conversion *)

Section ArrayProperties.

Context {T : Type}.
Implicit Types (t : BinaryTree T) (elements out : cells T) (n j max : Z).


(** X6.  [init_complete] reads the cells [1..n] of the array and nothing
    else: two arrays that agree there give the same tree. *)
Theorem init_complete_reads elements elements' n :
  (∀ j, 1 ≤ j ≤ n → elements j = elements' j) →
  init_complete elements n = init_complete elements' n.
Proof.
  intros Hsame. unfold init_complete.
  by rewrite (init_complete_rec_reads elements n elements' (init_fuel n) 1).
Qed.


(** With the index in [Z], [to_flat_array] stores the element of every
    node whose position is at most [max] in the cell of that position. *)
Theorem to_flat_array_writes t elements max j e :
  elem_at (root t) 1 j = Some e → j ≤ max →
  snd (to_flat_array t elements max) j = e.
Proof.
  intros He Hj. rewrite to_flat_array_cells, He.
  by destruct (Z.leb_spec j max); [|lia].
Qed.

Lemma to_flat_array_ret_bounds t elements max :
  Forall (λ j, j ≤ fst (to_flat_array t elements max)) (indices (root t) 1) ∧
  (root t = NULL ∧ fst (to_flat_array t elements max) = 0 ∨
   fst (to_flat_array t elements max) ∈ indices (root t) 1).
Proof.
  rewrite to_flat_array_ret.
  destruct (root t) as [|e l r] eqn:Hroot.
  - split; [constructor|by left].
  - rewrite <- Hroot. split.
    + apply Forall_forall. intros j Hj.
      by apply (fold_left_max_ge (indices (root t) 1) 1).
    + right. destruct (fold_left_max_elem (indices (root t) 1) 1) as [->|Hin];
        [|done].
      rewrite Hroot. left.
Qed.

(** X9.  The value that [to_flat_array] returns is at least [node_count],
    and it is [node_count] exactly when the tree is complete. *)
Theorem to_flat_array_ret_node_count t elements max :
  node_count t ≤ fst (to_flat_array t elements max) ∧
  (fst (to_flat_array t elements max) = node_count t ↔ complete t).
Proof.
  destruct (to_flat_array_ret_bounds t elements max) as [Hall Hin].
  set (ret := fst (to_flat_array t elements max)) in *.
  assert (node_count t ≤ ret) as Hle.
  { unfold node_count. rewrite <- (length_indices (root t) 1).
    assert (indices (root t) 1 ⊆+ seqZ 1 ret) as Hsub.
    { apply NoDup_submseteq; [by apply NoDup_indices|].
      intros j Hj. apply elem_of_seqZ. split.
      - by eapply elem_of_indices_root_pos.
      - rewrite Forall_forall in Hall. specialize (Hall j Hj). simpl in Hall. lia. }
    apply submseteq_length in Hsub. rewrite length_seqZ in Hsub.
    assert (0 ≤ ret) as Hret.
    { destruct Hin as [[_ ->]|Hin]; [done|].
      apply elem_of_indices_root_pos in Hin. lia. }
    lia. }
  split; [done|]. split.
  - intros Heq. unfold complete. by rewrite <- Heq.
  - intros Hc. destruct Hin as [[Hnull Hret]|Hin].
    + unfold node_count. rewrite Hnull. done.
    + unfold complete in Hc. rewrite Forall_forall in Hc.
      specialize (Hc ret Hin). simpl in Hc. lia.
Qed.

End ArrayProperties.

Lemma init_complete_reads_witness :
  (∀ j, 1 ≤ j ≤ 3 → tens j = (if j <=? 3 then tens j else 0)) ∧
  init_complete tens 3 = init_complete (λ j, if j <=? 3 then tens j else 0) 3.
Proof.
  assert (∀ j, 1 ≤ j ≤ 3 → tens j = (if j <=? 3 then tens j else 0)) as Hsame.
  { intros j Hj. destruct (Z.leb_spec j 3); [reflexivity|lia]. }
  split; [exact Hsame|].
  exact (init_complete_reads tens (λ j, if j <=? 3 then tens j else 0) 3 Hsame).
Defined.

Lemma to_flat_array_writes_witness :
  elem_at (root (right_only 1 2)) 1 3 = Some 2 ∧ 3 ≤ 5 ∧
  snd (to_flat_array (right_only 1 2) (filled 0) 5) 3 = 2.
Proof.
  split; [reflexivity|]. split; [lia|].
  apply (to_flat_array_writes (right_only 1 2) (filled 0) 5 3 2); [reflexivity|lia].
Defined.

(** * Further properties of the traversals, of printing and of release *)

Lemma string_app_assoc (s1 s2 s3 : string) :
  (s1 +:+ s2) +:+ s3 = s1 +:+ (s2 +:+ s3).
Proof.
  induction s1 as [|a s1 IH]; [done|].
  change (String a ((s1 +:+ s2) +:+ s3) = String a (s1 +:+ (s2 +:+ s3))).
  by rewrite IH.
Qed.

Lemma string_app_empty_r (s : string) : s +:+ "" = s.
Proof.
  induction s as [|a s IH]; [done|].
  change (String a (s +:+ "") = String a s). by rewrite IH.
Qed.

Section TraversalProperties.

Context {T : Type}.
Implicit Types (node l r : BTNode T) (t : BinaryTree T).

Lemma inorder_seq_preorder_seq node : inorder_seq node ≡ₚ preorder_seq node.
Proof.
  induction node as [|e l IHl r IHr]; simpl; [done|].
  by rewrite IHl, IHr, <- Permutation_middle.
Qed.

Lemma postorder_seq_preorder_seq node : postorder_seq node ≡ₚ preorder_seq node.
Proof.
  induction node as [|e l IHl r IHr]; simpl; [done|].
  by rewrite IHl, IHr, app_assoc, <- Permutation_cons_append.
Qed.

Lemma length_preorder_seq node :
  Z.of_nat (length (preorder_seq node)) = node_count_rec node.
Proof.
  induction node as [|e l IHl r IHr]; simpl; [done|].
  rewrite length_app, Nat2Z.inj_succ, Nat2Z.inj_add, IHl, IHr. lia.
Qed.

(** X10.  The three traversals call the visitor on the same elements with
    the same multiplicities, [node_count] calls each; only the order
    differs. *)
Theorem traversals_same_elements t :
  inorder record_visit t [] ≡ₚ preorder record_visit t [] ∧
  postorder record_visit t [] ≡ₚ preorder record_visit t [] ∧
  Z.of_nat (length (preorder record_visit t [])) = node_count t.
Proof.
  unfold preorder, inorder, postorder, node_count.
  rewrite preorder_rec_visit_all, inorder_rec_visit_all,
    postorder_rec_visit_all, !visit_all_record. simpl.
  split_and!.
  - apply inorder_seq_preorder_seq.
  - apply postorder_seq_preorder_seq.
  - apply length_preorder_seq.
Qed.

Variable show : T → string.

Lemma spaced_app (es1 es2 : list T) :
  spaced show (es1 ++ es2) = spaced show es1 +:+ spaced show es2.
Proof.
  induction es1 as [|e es1 IH]; [done|].
  change (show e +:+ " " +:+ spaced show (es1 ++ es2)
          = (show e +:+ " " +:+ spaced show es1) +:+ spaced show es2).
  by rewrite IH, !string_app_assoc.
Qed.

Lemma operator_shl_node_spaced node : ∀ out,
  operator_shl_node show out node = out +:+ spaced show (inorder_seq node).
Proof.
  induction node as [|e l IHl r IHr]; intros out; simpl.
  - by rewrite string_app_empty_r.
  - rewrite IHr, IHl, spaced_app.
    change (spaced show ([e] ++ inorder_seq r))
      with (show e +:+ " " +:+ spaced show (inorder_seq r)).
    by rewrite !string_app_assoc.
Qed.

Lemma visit_all_print (es : list T) : ∀ out,
  visit_all (print_visit show) es out = out +:+ spaced show es.
Proof.
  unfold visit_all.
  induction es as [|e es IH]; intros out; simpl.
  - by rewrite string_app_empty_r.
  - rewrite IH. unfold print_visit.
    change (spaced show (e :: es)) with (show e +:+ " " +:+ spaced show es).
    by rewrite !string_app_assoc.
Qed.

(** X11.  [operator<<] appends to the stream the elements in inorder, each
    followed by one space (nothing for the empty tree); it writes what
    [inorder] writes with a visitor that prints an element and a space. *)
Theorem operator_shl_inorder (out : string) t :
  operator_shl show out t = out +:+ spaced show (inorder_seq (root t)) ∧
  operator_shl show out t = inorder (print_visit show) t out.
Proof.
  unfold operator_shl, inorder.
  rewrite operator_shl_node_spaced, inorder_rec_visit_all, visit_all_print.
  done.
Qed.

End TraversalProperties.

Section ReleaseLemmas.

Context {T : Type}.
Implicit Types (node l r : BTNode T) (t : BinaryTree T).

Lemma empty_rec_app node : ∀ deleted,
  empty_rec node deleted = deleted ++ empty_rec node [].
Proof.
  induction node as [|e l IHl r IHr]; intros deleted; simpl.
  - by rewrite app_nil_r.
  - destruct (is_leaf l r); [done|].
    rewrite IHr, (IHl deleted), (IHr (empty_rec l [])). by rewrite app_assoc.
Qed.

Lemma length_empty_rec node :
  Z.of_nat (length (empty_rec node [])) = leaf_count_rec node.
Proof.
  induction node as [|e l IHl r IHr]; simpl; [done|].
  destruct (is_leaf l r); [done|].
  rewrite empty_rec_app, length_app, Nat2Z.inj_add, IHl, IHr. done.
Qed.

Lemma empty_rec_leaves node :
  Forall (λ d, ∃ e, d = Node e NULL NULL) (empty_rec node []).
Proof.
  induction node as [|e l IHl r IHr]; simpl; [constructor|].
  destruct (is_leaf l r) eqn:Hleaf.
  - destruct l; [|done]. destruct r; [|done].
    repeat constructor. by exists e.
  - rewrite empty_rec_app. by apply Forall_app.
Qed.

End ReleaseLemmas.

Section ReleaseProperties.

Context {T : Type}.
Implicit Types (node l r : BTNode T) (t : BinaryTree T).

Lemma is_leaf_tag l r index index' :
  is_leaf (tag l index) (tag r index') = is_leaf l r.
Proof. by destruct l, r. Qed.

Lemma empty_rec_tag node : ∀ index,
  (omap node_elem (empty_rec (tag node index) [])).*1 = leaf_indices node index.
Proof.
  induction node as [|e l IHl r IHr]; intros index; simpl; [done|].
  rewrite is_leaf_tag. destruct (is_leaf l r); [done|].
  by rewrite empty_rec_app, omap_app, fmap_app, IHl, IHr.
Qed.

(** X12.  [empty_this] returns true and leaves the tree empty, but the
    nodes it hands to [delete] are the leaves only, each once, left to
    right: a node that has a child is never deleted, so at most half of
    the nodes (rounded up) are released. *)
Theorem empty_this_deletes_leaves t :
  empty_this t [] = (true, empty_tree, empty_rec (root t) []) ∧
  Forall (λ d, ∃ e, d = Node e NULL NULL) (empty_rec (root t) []) ∧
  Z.of_nat (length (empty_rec (root t) [])) = leaf_count t ∧
  2 * Z.of_nat (length (empty_rec (root t) [])) ≤ node_count t + 1 ∧
  (omap node_elem (empty_rec (tag (root t) 1) [])).*1 = leaf_indices (root t) 1.
Proof.
  split_and!.
  - done.
  - apply empty_rec_leaves.
  - apply length_empty_rec.
  - rewrite length_empty_rec. apply leaf_count_rec_bounds.
  - apply empty_rec_tag.
Qed.

End ReleaseProperties.

(** * Further properties of equality, copy and assignment *)

Section SameTree.

Context {T : Type}.
Implicit Types (a b c node : BTNode T) (R : T → T → Prop).

Lemma same_tree_refl R node : (∀ x, R x x) → same_tree R node node.
Proof. intros HR. induction node; by constructor. Qed.

Lemma same_tree_sym R a b :
  (∀ x y, R x y → R y x) → same_tree R a b → same_tree R b a.
Proof. intros HR. induction 1; constructor; auto. Qed.

Lemma same_tree_trans R a b c :
  (∀ x y z, R x y → R y z → R x z) →
  same_tree R a b → same_tree R b c → same_tree R a c.
Proof.
  intros HR Hab. revert c.
  induction Hab as [|ea la ra eb lb rb He _ IHl _ IHr]; intros c Hbc.
  - done.
  - inversion Hbc; subst. constructor; eauto.
Qed.

Lemma same_tree_is_leaf R la ra lb rb :
  same_tree R la lb → same_tree R ra rb → is_leaf la ra = is_leaf lb rb.
Proof. by intros [] []. Qed.

Lemma same_tree_height R a b : same_tree R a b → height_rec a = height_rec b.
Proof.
  induction 1 as [|ea la ra eb lb rb He _ IHl _ IHr]; [done|].
  by rewrite !height_rec_Node, IHl, IHr.
Qed.

Lemma same_tree_leaf_count R a b :
  same_tree R a b → leaf_count_rec a = leaf_count_rec b.
Proof.
  induction 1 as [|ea la ra eb lb rb He Hl IHl Hr IHr]; [done|]. simpl.
  by rewrite (same_tree_is_leaf R la ra lb rb), IHl, IHr.
Qed.

End SameTree.

Section CppEquality.

Context {T : Type}.
Variable elem_eq : T → T → bool.
Implicit Types (this src a b c t : BinaryTree T).

(** X13.  On every pair of trees, [operator==] of [BinaryTree.cpp] returns
    true exactly when the trees have the same shape and corresponding
    elements compare equal, and [operator!=] returns true exactly when
    they do not. *)
Theorem operator_eq_cpp_structural this src :
  (operator_eq_cpp elem_eq this src = true
   ↔ same_tree (compares_equal elem_eq) (root this) (root src)) ∧
  (operator_ne_cpp elem_eq this src = true
   ↔ ¬ same_tree (compares_equal elem_eq) (root this) (root src)).
Proof.
  unfold operator_ne_cpp. rewrite negb_true_iff, operator_eq_cpp_compare.
  pose proof (compare_same_tree elem_eq (root this) (root src)) as Hiff.
  split; [done|].
  destruct (compare elem_eq (root this) (root src)); split; try done.
  - intros Hno. destruct Hno. by apply Hiff.
  - intros _ Hsame. by apply Hiff in Hsame.
Qed.

(** X14.  When [T]'s [operator==] is an equivalence, so is [operator==] of
    [BinaryTree.cpp]: reflexive, symmetric and transitive. *)
Theorem operator_eq_cpp_equivalence :
  (∀ x, elem_eq x x = true) →
  (∀ x y, elem_eq x y = true → elem_eq y x = true) →
  (∀ x y z, elem_eq x y = true → elem_eq y z = true → elem_eq x z = true) →
  (∀ t, operator_eq_cpp elem_eq t t = true) ∧
  (∀ a b, operator_eq_cpp elem_eq a b = operator_eq_cpp elem_eq b a) ∧
  (∀ a b c, operator_eq_cpp elem_eq a b = true →
            operator_eq_cpp elem_eq b c = true →
            operator_eq_cpp elem_eq a c = true).
Proof.
  intros Hrefl Hsym Htrans. split_and!.
  - intros t. apply operator_eq_cpp_same_tree. by apply same_tree_refl.
  - intros a b. apply eq_true_iff_eq. rewrite !operator_eq_cpp_same_tree.
    split; by apply same_tree_sym.
  - intros a b c. rewrite !operator_eq_cpp_same_tree.
    by apply same_tree_trans.
Qed.

(** X15.  Two trees that [operator==] of [BinaryTree.cpp] finds equal
    agree on every query: [node_count], [height], [leaf_count],
    [is_empty], and the value [to_flat_array] returns. *)
Theorem operator_eq_cpp_queries a b (elements : cells T) (max : Z) :
  operator_eq_cpp elem_eq a b = true →
  node_count a = node_count b ∧ height a = height b ∧
  leaf_count a = leaf_count b ∧ is_empty a = is_empty b ∧
  fst (to_flat_array a elements max) = fst (to_flat_array b elements max).
Proof.
  rewrite operator_eq_cpp_same_tree. intros Hsame.
  unfold node_count, height, leaf_count, is_empty.
  rewrite !to_flat_array_ret.
  rewrite (same_tree_node_count _ _ _ Hsame), (same_tree_height _ _ _ Hsame),
    (same_tree_leaf_count _ _ _ Hsame), (same_tree_indices _ _ _ Hsame).
  by destruct Hsame.
Qed.

(** X16.  Copy and assignment of [BinaryTree.cpp] return a tree that
    [operator==] of [BinaryTree.cpp] finds equal to the source, whatever
    the shape of the source, as soon as every element compares equal to
    itself. *)
Theorem copy_cpp_operator_eq_cpp this src :
  (∀ x, elem_eq x x = true) →
  operator_eq_cpp elem_eq (copy_cpp src) src = true ∧
  operator_ne_cpp elem_eq (copy_cpp src) src = false ∧
  operator_eq_cpp elem_eq (assign_cpp this src) src = true.
Proof.
  intros Hrefl. unfold operator_ne_cpp. rewrite copy_cpp_id, assign_cpp_id.
  assert (operator_eq_cpp elem_eq src src = true) as ->; [|done].
  apply operator_eq_cpp_same_tree. by apply same_tree_refl.
Qed.

End CppEquality.

Lemma int_eq_refl x : int_eq x x = true.
Proof. apply Z.eqb_refl. Qed.

Lemma int_eq_sym x y : int_eq x y = true → int_eq y x = true.
Proof. unfold int_eq. rewrite !Z.eqb_eq. congruence. Qed.

Lemma int_eq_trans x y z :
  int_eq x y = true → int_eq y z = true → int_eq x z = true.
Proof. unfold int_eq. rewrite !Z.eqb_eq. congruence. Qed.

Lemma operator_eq_cpp_equivalence_witness :
  (∀ t, operator_eq_cpp int_eq t t = true) ∧
  (∀ a b, operator_eq_cpp int_eq a b = operator_eq_cpp int_eq b a) ∧
  (∀ a b c, operator_eq_cpp int_eq a b = true →
            operator_eq_cpp int_eq b c = true →
            operator_eq_cpp int_eq a c = true).
Proof.
  exact (operator_eq_cpp_equivalence int_eq int_eq_refl int_eq_sym int_eq_trans).
Defined.

Lemma operator_eq_cpp_queries_witness :
  let same_parity x y := Bool.eqb (Z.even x) (Z.even y) in
  operator_eq_cpp same_parity (right_only 1 2) (right_only 3 4) = true ∧
  node_count (right_only 1 2) = node_count (right_only 3 4) ∧
  height (right_only 1 2) = height (right_only 3 4) ∧
  leaf_count (right_only 1 2) = leaf_count (right_only 3 4) ∧
  is_empty (right_only 1 2) = is_empty (right_only 3 4) ∧
  fst (to_flat_array (right_only 1 2) (filled 0) 1)
  = fst (to_flat_array (right_only 3 4) (filled 0) 1).
Proof.
  intros same_parity. split; [reflexivity|].
  apply (operator_eq_cpp_queries same_parity (right_only 1 2) (right_only 3 4)).
  reflexivity.
Defined.

Lemma copy_cpp_operator_eq_cpp_witness :
  (∀ x, int_eq x x = true) ∧
  operator_eq_cpp int_eq (copy_cpp (right_only 1 2)) (right_only 1 2) = true ∧
  operator_ne_cpp int_eq (copy_cpp (right_only 1 2)) (right_only 1 2) = false ∧
  operator_eq_cpp int_eq (assign_cpp empty_tree (right_only 1 2)) (right_only 1 2)
  = true.
Proof.
  split; [exact int_eq_refl|].
  exact (copy_cpp_operator_eq_cpp int_eq empty_tree (right_only 1 2) int_eq_refl).
Defined.

Section HeaderEquality.

Context {T : Type}.
Variables elem_eq elem_ne : T → T → bool.
Implicit Types (this src t : BinaryTree T) (srcNew thisNew : cells T) (n j : Z).

(** X17.  On a complete source the copy constructor and [operator=] of
    [BinaryTree.h] return the source tree itself, whatever the fresh
    array held. *)
Theorem copy_h_assign_h_complete this src srcNew :
  complete src →
  copy_h src srcNew = Some src ∧ assign_h this src srcNew = Some src.
Proof.
  intros Hc. split.
  - by apply copy_h_complete.
  - by apply assign_h_complete.
Qed.


(** With the index in [Z], the copy constructor of [BinaryTree.h] returns
    on any source a complete tree with the [node_count] of the source.
    Its node at position [j] holds the element of the source's node at
    [j] when the source has one, and otherwise what the fresh array held
    in cell [j]. *)
Theorem copy_h_any src srcNew :
  ∃ copy,
    copy_h src srcNew = Some copy ∧
    complete copy ∧
    node_count copy = node_count src ∧
    ∀ j, 1 ≤ j ≤ node_count src →
         elem_at (root copy) 1 j
         = Some (default (srcNew j) (elem_at (root src) 1 j)).
Proof.
  unfold copy_h.
  set (srcEle := snd (to_flat_array src srcNew (node_count src))).
  destruct (init_complete_built srcEle (node_count src)) as (node & -> & Hb).
  pose proof (node_count_rec_nonneg (root src)) as Hn. fold (node_count src) in Hn.
  exists (mkTree node). split_and!; [done|by eapply built_complete|..].
  - by apply (built_node_count srcEle).
  - intros j Hj. simpl.
    assert (is_Some (elem_at node 1 j)) as [e He].
    { apply elem_at_is_Some. by apply (built_indices srcEle _ node j Hb). }
    rewrite He. f_equal.
    apply (built_elem_at srcEle _ 1 node Hb) in He as ->.
    unfold srcEle. rewrite to_flat_array_cells.
    destruct (elem_at (root src) 1 j); simpl; [|done].
    destruct (Z.leb_spec j (node_count src)); [done|lia].
Qed.

(** X20.  When the fresh arrays of the copy constructor and of
    [operator==] of [BinaryTree.h] hold the same contents (as they do for
    a class type, whose cells are default-constructed), [operator==]
    finds the copy equal to its source on every tree, also on one whose
    shape the copy has changed. *)
Theorem copy_h_operator_eq_h src srcNew :
  (∀ x, elem_ne x x = false) →
  ∃ copy, copy_h src srcNew = Some copy ∧
          operator_eq_h elem_ne copy src srcNew srcNew = true ∧
          operator_ne_h elem_ne copy src srcNew srcNew = false.
Proof.
  intros Hrefl.
  destruct (copy_h_operator_eq_h_same_new elem_ne src srcNew Hrefl)
    as (copy & Hcopy & Heq).
  exists copy. unfold operator_ne_h. by rewrite Heq.
Qed.

End HeaderEquality.

Lemma copy_h_assign_h_complete_witness :
  complete (three 10 20 30) ∧
  copy_h (three 10 20 30) (filled 0) = Some (three 10 20 30) ∧
  assign_h empty_tree (three 10 20 30) (filled 0) = Some (three 10 20 30).
Proof.
  split; [apply three_complete|].
  apply (copy_h_assign_h_complete empty_tree (three 10 20 30) (filled 0)).
  apply three_complete.
Defined.


Lemma int_ne_irrefl x : int_ne x x = false.
Proof. unfold int_ne. by rewrite Z.eqb_refl. Qed.

Lemma copy_h_operator_eq_h_witness :
  (∀ x, int_ne x x = false) ∧
  ∃ copy, copy_h (right_only 1 2) (filled 0) = Some copy ∧
          operator_eq_h int_ne copy (right_only 1 2) (filled 0) (filled 0) = true ∧
          operator_ne_h int_ne copy (right_only 1 2) (filled 0) (filled 0) = false.
Proof.
  split; [exact int_ne_irrefl|].
  exact (copy_h_operator_eq_h int_ne (right_only 1 2) (filled 0) int_ne_irrefl).
Defined.

(** * Properties of [display] *)

Lemma shl_one_Some k :
  0 ≤ k ≤ 31 → shl_one k = Some (wrap_int (Z.shiftl 1 k)).
Proof.
  intros Hk. unfold shl_one.
  destruct (Z.leb_spec 0 k); [|lia]. destruct (Z.ltb_spec k 32); [done|lia].
Qed.

Lemma shl_one_None k : 31 < k → shl_one k = None.
Proof.
  intros Hk. unfold shl_one.
  destruct (Z.leb_spec 0 k); [|done]. destruct (Z.ltb_spec k 32); [lia|done].
Qed.

Section DisplayProperties.

Context {T D : Type}.
Variable of_int : Z → D.
Variables dadd dsub dmul ddiv : D → D → D.
Variable lit_0_75 : D.
Variables center_x top_y : D.
Variable show : T → string.
Implicit Types (node l r : BTNode T) (t : BinaryTree T) (x y scale : D)
  (pdf added : list (pdf_call D)) (leaf_dist : Z).

Local Abbreviation display_rec' := (display_rec of_int dadd dsub dmul ddiv show).
Local Abbreviation display' :=
  (display of_int dadd dsub dmul ddiv lit_0_75 center_x top_y show).

Lemma display_rec_drawn node : ∀ leaf_dist x y scale pdf,
  height_rec node ≤ leaf_dist + 1 → leaf_dist ≤ 31 →
  ∃ added, display_rec' node leaf_dist x y scale pdf = Some (pdf ++ added) ∧
           drawn show node x y added.
Proof.
  induction node as [|e l IHl r IHr]; intros leaf_dist x y scale pdf Hh Hd.
  { exists []. split; [by rewrite app_nil_r|]. by repeat split. }
  rewrite height_rec_Node in Hh.
  pose proof (height_rec_nonneg l) as Hl0. pose proof (height_rec_nonneg r) as Hr0.
  assert (∀ c (IHc : ∀ leaf_dist x y scale pdf,
                 height_rec c ≤ leaf_dist + 1 → leaf_dist ≤ 31 →
                 ∃ added, display_rec' c leaf_dist x y scale pdf
                          = Some (pdf ++ added) ∧ drawn show c x y added)
            (side : D → D → D) pdf0,
            height_rec c ≤ leaf_dist →
            ∃ added,
              match c with
              | NULL => Some pdf0
              | Node _ _ _ =>
                  spread ← shl_one leaf_dist;
                  let x_c :=
                    side x (ddiv (dmul (dmul (of_int spread) (node_sep of_int))
                                       scale) (of_int 2)) in
                  let y_c := dsub y (dmul (level_sep of_int) scale) in
                  let pdf := pdf0 ++ [moveto x y; lineto x_c y_c; stroke] in
                  display_rec' c (leaf_dist - 1) x_c y_c scale pdf
              end = Some (pdf0 ++ added) ∧
              omap box_text added = show <$> postorder_seq c ∧
              Z.of_nat (length (omap stroke_call added)) = node_count_rec c ∧
              (∀ p, p ∈ omap line_end added → p ∈ omap box_at added) ∧
              (∀ p, p ∈ omap line_start added
                    → p = (x, y) ∨ p ∈ omap box_at added)) as Hchild.
  { intros c IHc side pdf0 Hc. destruct c as [|ec cl cr] eqn:Ec.
    { exists []. split; [by rewrite app_nil_r|]. repeat split; try done.
      all: intros p Hp; by apply elem_of_nil in Hp. }
    rewrite <- Ec in *.
    assert (1 ≤ height_rec c) as Hc1.
    { rewrite Ec, height_rec_Node.
      pose proof (height_rec_nonneg cl). pose proof (height_rec_nonneg cr). lia. }
    rewrite shl_one_Some by lia. cbn [mbind option_bind].
    set (x_c := side x _). set (y_c := dsub y _).
    destruct (IHc (leaf_dist - 1) x_c y_c scale
                (pdf0 ++ [moveto x y; lineto x_c y_c; stroke]))
      as (added & -> & Hbox & Hstroke & Hend & Hstart & Hroot); [lia..|].
    exists ([moveto x y; lineto x_c y_c; stroke] ++ added).
    split; [by rewrite app_assoc|].
    rewrite Ec in Hstroke. simpl in Hstroke.
    rewrite !omap_app. simpl. split_and!.
    - done.
    - rewrite Ec. simpl. lia.
    - intros p [->|Hp]%elem_of_cons; [apply Hroot; by rewrite Ec|by apply Hend].
    - intros p [->|Hp]%elem_of_cons; [by left|right; by apply Hstart]. }
  destruct (Hchild l IHl dsub pdf ltac:(lia))
    as (addedL & HL & HboxL & HstrokeL & HendL & HstartL).
  destruct (Hchild r IHr dadd (pdf ++ addedL) ltac:(lia))
    as (addedR & HR & HboxR & HstrokeR & HendR & HstartR).
  exists (addedL ++ addedR ++
          [text_box (show e) x y (dmul scale (node_box_margin of_int))
             (dmul scale (node_box_r of_int)) 0 (dmul scale (font_scale of_int))]).
  split.
  { simpl. simpl in HL. rewrite HL. simpl. simpl in HR. rewrite HR. simpl.
    by rewrite <- !app_assoc. }
  unfold drawn. rewrite !omap_app, !length_app. simpl.
  rewrite !fmap_app, HboxL, HboxR. split_and!.
  - done.
  - lia.
  - intros p. rewrite !elem_of_app. intros [Hp|[Hp|Hp]];
      [left; auto|right; left; auto|by apply elem_of_nil in Hp].
  - intros p. rewrite !elem_of_app. intros [Hp|[Hp|Hp]].
    + destruct (HstartL p Hp) as [->|]; [right; right; left|by left].
    + destruct (HstartR p Hp) as [->|]; [right; right; left|right; by left].
    + by apply elem_of_nil in Hp.
  - intros _. rewrite !elem_of_app. right. right. left.
Qed.

(** The calls of [display] before it draws the tree. *)
Lemma display_drawn t annotation pdf :
  height t ≤ 31 →
  ∃ scale added,
    display' t annotation pdf
    = Some (pdf ++ [new_page annotation;
                    selectfont_Helvetica (dmul (font_scale of_int) scale);
                    setcolor_nonstroke lit_0_75;
                    setlinewidth scale] ++ added) ∧
    drawn show (root t) center_x top_y added.
Proof.
  intros Hh. unfold display.
  pose proof (height_rec_nonneg (root t)) as H0. fold (height t) in H0.
  set (scale := if height t >=? 4
                then ddiv (of_int 16) (of_int (wrap_int (Z.shiftl 1 (height t))))
                else of_int 1).
  assert ((if height t >=? 4
           then full ← shl_one (height t); Some (ddiv (of_int 16) (of_int full))
           else Some (of_int 1)) = Some scale) as ->.
  { subst scale. destruct (height t >=? 4); [|done].
    by rewrite shl_one_Some by lia. }
  cbn [mbind option_bind].
  destruct (display_rec_drawn (root t) (height t - 1) center_x top_y scale
              ((((pdf ++ [new_page annotation])
                 ++ [selectfont_Helvetica (dmul (font_scale of_int) scale)])
                ++ [setcolor_nonstroke lit_0_75]) ++ [setlinewidth scale]))
    as (added & Hrun & Hdrawn).
  { unfold height. lia. }
  { lia. }
  exists scale, added. split; [|done].
  rewrite Hrun. by rewrite <- !app_assoc.
Qed.

Lemma display_undefined t annotation pdf :
  31 < height t → display' t annotation pdf = None.
Proof.
  intros Hh. unfold display.
  destruct (Z.geb_spec (height t) 4) as [_|]; [|lia].
  by rewrite shl_one_None.
Qed.

(** X21.  With a 32-bit [int], [display] evaluates only defined shifts
    exactly on the trees of height at most 31: there [1 << h] has a count
    of at most 31 and every [1 << leaf_dist] of the helper a count of at
    most 30; on a higher tree the count of [1 << h] is 32 or more and the
    shift is undefined before anything is drawn. *)
Theorem display_defined t annotation pdf :
  is_Some (display' t annotation pdf) ↔ height t ≤ 31.
Proof.
  split.
  - intros [pdf' Hrun]. destruct (Z.le_gt_cases (height t) 31) as [|Hgt]; [done|].
    by rewrite display_undefined in Hrun.
  - intros Hh. destruct (display_drawn t annotation pdf Hh) as (? & ? & -> & _).
    by eexists.
Qed.

(** X22.  A run of [display] starts a page with the annotation, selects
    the font, the colour and the line width, and then draws one box per
    node, the boxes carrying the elements in postorder (children before
    their parent), and one stroked line per node other than the root. *)
Theorem display_boxes t annotation pdf pdf' :
  display' t annotation pdf = Some pdf' →
  ∃ scale added,
    pdf' = pdf ++ [new_page annotation;
                   selectfont_Helvetica (dmul (font_scale of_int) scale);
                   setcolor_nonstroke lit_0_75;
                   setlinewidth scale] ++ added ∧
    omap box_text added = show <$> postorder_seq (root t) ∧
    Z.of_nat (length (omap box_text added)) = node_count t ∧
    Z.of_nat (length (omap stroke_call added))
      + (if is_empty t then 0 else 1) = node_count t.
Proof.
  intros Hrun.
  assert (height t ≤ 31) as Hh.
  { destruct (Z.le_gt_cases (height t) 31) as [|Hgt]; [done|].
    by rewrite display_undefined in Hrun. }
  destruct (display_drawn t annotation pdf Hh)
    as (scale & added & Heq & Hbox & Hstroke & _).
  rewrite Heq in Hrun. injection Hrun as <-.
  exists scale, added. split_and!; [done..| |].
  - rewrite Hbox, length_fmap. unfold node_count.
    rewrite <- (length_preorder_seq (root t)).
    by rewrite (postorder_seq_preorder_seq (root t)).
  - unfold is_empty, node_count. by destruct (root t).
Qed.

(** X23.  In a run of [display] every line starts where a box is placed
    and ends where a box is placed (the parent's and the child's), and
    the box of the root is placed at the point that [display] computed
    from the page size. *)
Theorem display_lines t annotation pdf pdf' :
  display' t annotation pdf = Some pdf' →
  ∃ before added,
    pdf' = pdf ++ before ++ added ∧ length before = 4%nat ∧
    (∀ p, p ∈ omap line_start added → p ∈ omap box_at added) ∧
    (∀ p, p ∈ omap line_end added → p ∈ omap box_at added) ∧
    (is_empty t = true ∨ (center_x, top_y) ∈ omap box_at added).
Proof.
  intros Hrun.
  assert (height t ≤ 31) as Hh.
  { destruct (Z.le_gt_cases (height t) 31) as [|Hgt]; [done|].
    by rewrite display_undefined in Hrun. }
  destruct (display_drawn t annotation pdf Hh)
    as (scale & added & Heq & Hbox & Hstroke & Hend & Hstart & Hroot).
  rewrite Heq in Hrun. injection Hrun as <-.
  exists [new_page annotation;
          selectfont_Helvetica (dmul (font_scale of_int) scale);
          setcolor_nonstroke lit_0_75; setlinewidth scale], added.
  split_and!; [done..|].
  unfold is_empty. destruct (root t) as [|e l r] eqn:Er; [by left|].
  right. by apply Hroot.
Qed.

End DisplayProperties.

(** A stand-in for [double] in the examples: integer arithmetic. *)
Lemma display_boxes_witness :
  ∃ pdf',
    display (λ z, z) Z.add Z.sub Z.mul Z.div 0 300 700 (λ _ : Z, "n")
      (right_only 1 2) "page" [] = Some pdf' ∧
    ∃ scale added,
      pdf' = [] ++ [new_page "page";
                    selectfont_Helvetica (font_scale (λ z, z) * scale);
                    setcolor_nonstroke 0;
                    setlinewidth scale] ++ added ∧
      omap box_text added = (λ _ : Z, "n") <$> postorder_seq (root (right_only 1 2)) ∧
      Z.of_nat (length (omap box_text added)) = node_count (right_only 1 2) ∧
      Z.of_nat (length (omap stroke_call added))
        + (if is_empty (right_only 1 2) then 0 else 1) = node_count (right_only 1 2).
Proof.
  eexists. split; [vm_compute; reflexivity|].
  apply (display_boxes (λ z, z) Z.add Z.sub Z.mul Z.div 0 300 700 (λ _ : Z, "n")
           (right_only 1 2) "page" []).
  vm_compute. reflexivity.
Defined.

Lemma display_lines_witness :
  ∃ pdf',
    display (λ z, z) Z.add Z.sub Z.mul Z.div 0 300 700 (λ _ : Z, "n")
      (right_only 1 2) "page" [] = Some pdf' ∧
    ∃ before added,
      pdf' = [] ++ before ++ added ∧ length before = 4%nat ∧
      (∀ p, p ∈ omap line_start added → p ∈ omap box_at added) ∧
      (∀ p, p ∈ omap line_end added → p ∈ omap box_at added) ∧
      (is_empty (right_only 1 2) = true ∨ (300, 700) ∈ omap box_at added).
Proof.
  eexists. split; [vm_compute; reflexivity|].
  apply (display_lines (λ z, z) Z.add Z.sub Z.mul Z.div 0 300 700 (λ _ : Z, "n")
           (right_only 1 2) "page" []).
  vm_compute. reflexivity.
Defined.

(** * [to_flat_array] with a 32-bit index *)

Lemma wrap_int_small z : - 2 ^ 31 ≤ z < 2 ^ 31 → wrap_int z = z.
Proof. intros Hz. unfold wrap_int. rewrite Z.mod_small; lia. Qed.

Section FlatArrayInt.

Context {T : Type}.
Implicit Types (node l r : BTNode T) (t : BinaryTree T) (elements : cells T)
  (index j max : Z) (st : flat_state T).

Lemma height_rec_pos e l r : 1 ≤ height_rec (Node e l r).
Proof.
  rewrite height_rec_Node.
  pose proof (height_rec_nonneg l). pose proof (height_rec_nonneg r). lia.
Qed.

(** As long as the positions of the nodes fit 32 bits, the helper with the
    wrapping index does what the helper with the index in [Z] does: an
    index wraps only on the way to a child that is missing, where it is
    not looked at. *)
Lemma to_flat_array_rec_int_agrees max node : ∀ index st,
  1 ≤ index → (index + 1) * 2 ^ (height_rec node - 1) ≤ 2 ^ 31 →
  to_flat_array_rec_int max node index st = to_flat_array_rec max node index st.
Proof.
  induction node as [|e l IHl r IHr]; intros index st Hi Hfit; [done|].
  rewrite height_rec_Node in Hfit.
  replace (1 + height_rec l `max` height_rec r - 1)
    with (height_rec l `max` height_rec r) in Hfit by lia.
  set (m := height_rec l `max` height_rec r) in *.
  assert (height_rec l ≤ m) as Hlm by (unfold m; lia).
  assert (height_rec r ≤ m) as Hrm by (unfold m; lia).
  clearbody m.
  assert (∀ c : BTNode T, 1 ≤ height_rec c → height_rec c ≤ m →
               2 * (index + 1) ≤ 2 ^ 31 ∧
               (index + 1) * (2 * 2 ^ (height_rec c - 1)) ≤ 2 ^ 31) as Hchild.
  { intros c Hc1 Hcm.
    assert (2 * 2 ^ (height_rec c - 1) ≤ 2 ^ m) as Hpow.
    { rewrite <- Z.pow_succ_r by lia. apply Z.pow_le_mono_r; lia. }
    assert (1 ≤ 2 ^ (height_rec c - 1)) as Hone.
    { apply (Z.pow_le_mono_r 2 0); lia. }
    nia. }
  assert (∀ st', to_flat_array_rec_int max l (wrap_int (2 * index)) st'
                 = to_flat_array_rec max l (2 * index) st') as Hl.
  { intros st'. destruct l as [|el ll lr] eqn:El; [done|]. rewrite <- El in *.
    assert (1 ≤ height_rec l) as Hl1 by (rewrite El; apply height_rec_pos).
    destruct (Hchild l Hl1 Hlm) as [Hsmall Hdeep].
    rewrite wrap_int_small by lia. apply IHl; [lia|].
    assert (0 < 2 ^ (height_rec l - 1)) by (apply Z.pow_pos_nonneg; lia). nia. }
  assert (∀ st', to_flat_array_rec_int max r
                   (wrap_int (wrap_int (2 * index) + 1)) st'
                 = to_flat_array_rec max r (2 * index + 1) st') as Hr.
  { intros st'. destruct r as [|er rl rr] eqn:Er; [done|]. rewrite <- Er in *.
    assert (1 ≤ height_rec r) as Hr1 by (rewrite Er; apply height_rec_pos).
    destruct (Hchild r Hr1 Hrm) as [Hsmall Hdeep].
    rewrite (wrap_int_small (2 * index)) by lia.
    rewrite wrap_int_small by lia. apply IHr; [lia|]. nia. }
  simpl. by rewrite Hl, Hr.
Qed.

(** On a tree of height at most 31 the two forms of [to_flat_array]
    coincide. *)
Lemma to_flat_array_int_agrees t elements max :
  height t ≤ 31 →
  to_flat_array_int t elements max = to_flat_array t elements max.
Proof.
  intros Hh. unfold to_flat_array_int, to_flat_array, height in *.
  rewrite to_flat_array_rec_int_agrees; [done|lia|].
  pose proof (height_rec_nonneg (root t)) as H0.
  destruct (decide (height_rec (root t) = 0)) as [->|Hpos]; [done|].
  replace ((1 + 1) * 2 ^ (height_rec (root t) - 1))
    with (2 ^ Z.succ (height_rec (root t) - 1)) by (rewrite Z.pow_succ_r; lia).
  apply Z.pow_le_mono_r; lia.
Qed.

Lemma copy_h_int_agrees (src : BinaryTree T) (srcNew : cells T) :
  height src ≤ 31 → copy_h_int src srcNew = copy_h src srcNew.
Proof. intros Hh. unfold copy_h_int, copy_h. by rewrite to_flat_array_int_agrees. Qed.

(** C4, as amended.  For every tree of height at most 31 and every [max],
    [to_flat_array] returns the largest complete-tree position of a node
    of the tree, and 0 for the empty tree. *)
Theorem to_flat_array_int_max_index t elements max :
  height t ≤ 31 →
  let ret := fst (to_flat_array_int t elements max) in
  ret ∈ (if is_empty t then [0] else indices (root t) 1) ∧
  Forall (λ j, j ≤ ret) (indices (root t) 1).
Proof.
  intros Hh. rewrite (to_flat_array_int_agrees t elements max Hh).
  apply to_flat_array_returns_max_index.
Qed.

(** C9, as amended.  Frame of [to_flat_array] on every tree of height at
    most 31: a cell whose index is not both within [1..max] and the
    position of a node keeps its value; so do cell 0 and every cell past
    [max]. *)
Theorem to_flat_array_int_frame t elements max j :
  height t ≤ 31 →
  ¬ (1 ≤ j ≤ max ∧ j ∈ indices (root t) 1) →
  snd (to_flat_array_int t elements max) j = elements j.
Proof.
  intros Hh Hout. rewrite (to_flat_array_int_agrees t elements max Hh).
  by apply to_flat_array_frame.
Qed.

(** X4.  On a tree of height at most 31 that is not empty, the value that
    [to_flat_array] returns lies on the deepest level: [height] is [log2]
    of it plus 1. *)
Theorem height_to_flat_array_int t elements max :
  is_empty t = false → height t ≤ 31 →
  height t = Z.log2 (fst (to_flat_array_int t elements max)) + 1.
Proof.
  intros Hne Hh. rewrite (to_flat_array_int_agrees t elements max Hh).
  by apply height_to_flat_array.
Qed.

(** X8.  On a tree of height at most 31, [to_flat_array] stores the
    element of every node whose position is at most [max] in the cell of
    that position. *)
Theorem to_flat_array_int_writes t elements max j e :
  height t ≤ 31 →
  elem_at (root t) 1 j = Some e → j ≤ max →
  snd (to_flat_array_int t elements max) j = e.
Proof.
  intros Hh He Hj. rewrite (to_flat_array_int_agrees t elements max Hh).
  by apply to_flat_array_writes.
Qed.

(** X19.  On a source of height at most 31, complete or not, the copy
    constructor of [BinaryTree.h] returns a complete tree with the
    [node_count] of the source.  Its node at position [j] holds the
    element of the source's node at [j] when the source has one, and
    otherwise what the fresh array held in cell [j]. *)
Theorem copy_h_int_any (src : BinaryTree T) (srcNew : cells T) :
  height src ≤ 31 →
  ∃ copy,
    copy_h_int src srcNew = Some copy ∧
    complete copy ∧
    node_count copy = node_count src ∧
    ∀ j, 1 ≤ j ≤ node_count src →
         elem_at (root copy) 1 j
         = Some (default (srcNew j) (elem_at (root src) 1 j)).
Proof.
  intros Hh. rewrite (copy_h_int_agrees src srcNew Hh). apply copy_h_any.
Qed.

(** A tree built from fewer than [2^31] elements has height at most 31,
    so the round trip through the array holds with the 32-bit index
    too. *)
Lemma to_flat_array_int_init_complete elements (out : cells T) n max :
  0 ≤ n < 2 ^ 31 → n ≤ max →
  ∃ t, init_complete elements n = Some t ∧ height t ≤ 31 ∧
       ∀ j, 1 ≤ j ≤ n → snd (to_flat_array_int t out max) j = elements j.
Proof.
  intros Hn Hmax.
  destruct (init_complete_built elements n) as (node & Hinit & Hb).
  exists (mkTree node). split; [done|].
  assert (height (mkTree node) ≤ 31) as Hh.
  { unfold height. simpl. rewrite (built_height elements n 1 node Hb) by lia.
    destruct (Z.gtb_spec 1 n); [lia|]. rewrite Z.div_1_r.
    assert (Z.log2 n < 31) by (apply Z.log2_lt_pow2; lia). lia. }
  split; [done|]. intros j Hj.
  rewrite (to_flat_array_int_agrees (mkTree node) out max Hh),
    to_flat_array_cells. simpl.
  assert (is_Some (elem_at node 1 j)) as [e He].
  { apply elem_at_is_Some. by apply (built_indices elements n). }
  rewrite He. destruct (Z.leb_spec j max); [|lia]. by eapply built_elem_at.
Qed.

End FlatArrayInt.

Section EqualityAgreement.

Context {T : Type}.
Variables elem_eq elem_ne : T → T → bool.
Implicit Types (this src : BinaryTree T) (thisNew srcNew : cells T).

(** X24.  The flat-array [operator==] of [BinaryTree.h] returns what the
    recursive [operator==] of [BinaryTree.cpp] returns on every pair of
    complete trees and on every pair of trees with different node counts,
    whatever the fresh arrays hold, [T]'s [operator!=] being the negation
    of its [operator==]. *)
Theorem operator_eq_h_cpp_agree this src thisNew srcNew :
  (∀ x y, elem_ne x y = negb (elem_eq x y)) →
  (complete this ∧ complete src) ∨ node_count this ≠ node_count src →
  operator_eq_h elem_ne this src thisNew srcNew = operator_eq_cpp elem_eq this src.
Proof.
  intros Hne [[Hthis Hsrc]|Hcount].
  - by apply operator_eq_h_cpp_complete.
  - unfold operator_eq_h.
    destruct (Z.eqb_spec (node_count this) (node_count src)) as [|_]; [done|].
    simpl. symmetry. apply not_true_is_false. intros Heq.
    apply operator_eq_cpp_same_tree in Heq. apply Hcount.
    by apply (same_tree_node_count (compares_equal elem_eq)).
Qed.

End EqualityAgreement.

(** ** A chain of 32 nodes *)

(** C4, as stated, fails.  On a chain of 32 right children the deepest
    node has position [2^32 - 1]; the 32-bit index of [to_flat_array]
    wraps to [-1] there, and the value returned is [2^31 - 1], below the
    position of that node. *)
Lemma to_flat_array_int_max_index_fails :
  let t := mkTree (right_chain 32) in
  let ret := fst (to_flat_array_int t (filled 0) 0) in
  ret = 2147483647 ∧ ¬ Forall (λ j, j ≤ ret) (indices (root t) 1).
Proof.
  split; [by vm_compute|].
  intros Hall. rewrite Forall_forall in Hall.
  assert (4294967295 ∈ indices (root (mkTree (right_chain 32))) 1) as Hin.
  { apply (list_elem_of_lookup_2 _ 31). by vm_compute. }
  specialize (Hall _ Hin). vm_compute in Hall. by apply Hall.
Qed.

(** C9, as stated, fails.  On the same chain, with [max = 0], the index
    of the deepest node has wrapped to [-1], which is not past [max]: the
    cell at index [-1], outside [1..max], is overwritten with the element
    of that node. *)
Lemma to_flat_array_int_frame_fails :
  let t := mkTree (right_chain 32) in
  ¬ (1 ≤ -1 ≤ 0 ∧ -1 ∈ indices (root t) 1) ∧
  snd (to_flat_array_int t (filled 0) 0) (-1) = 1 ∧
  filled 0 (-1) = 0.
Proof. split; [lia|]. split; by vm_compute. Qed.

Lemma to_flat_array_int_max_index_witness :
  height (right_only 1 2) ≤ 31 ∧
  let ret := fst (to_flat_array_int (right_only 1 2) (filled 0) 0) in
  ret ∈ (if is_empty (right_only 1 2) then [0]
         else indices (root (right_only 1 2)) 1) ∧
  Forall (λ j, j ≤ ret) (indices (root (right_only 1 2)) 1).
Proof.
  assert (height (right_only 1 2) ≤ 31) as Hh by by vm_compute.
  split; [exact Hh|].
  exact (to_flat_array_int_max_index (right_only 1 2) (filled 0) 0 Hh).
Defined.

Lemma to_flat_array_int_frame_witness :
  height (three 10 20 30) ≤ 31 ∧
  ¬ (1 ≤ 3 ≤ 2 ∧ 3 ∈ indices (root (three 10 20 30)) 1) ∧
  snd (to_flat_array_int (three 10 20 30) (filled 0) 2) 3 = filled 0 3.
Proof.
  assert (height (three 10 20 30) ≤ 31) as Hh by by vm_compute.
  assert (¬ (1 ≤ 3 ≤ 2 ∧ 3 ∈ indices (root (three 10 20 30)) 1)) as Hout by lia.
  split; [exact Hh|]. split; [exact Hout|].
  exact (to_flat_array_int_frame (three 10 20 30) (filled 0) 2 3 Hh Hout).
Defined.

Lemma height_to_flat_array_int_witness :
  is_empty (right_only 1 2) = false ∧ height (right_only 1 2) ≤ 31 ∧
  height (right_only 1 2)
  = Z.log2 (fst (to_flat_array_int (right_only 1 2) (filled 0) 0)) + 1.
Proof.
  assert (height (right_only 1 2) ≤ 31) as Hh by by vm_compute.
  split; [reflexivity|]. split; [exact Hh|].
  exact (height_to_flat_array_int (right_only 1 2) (filled 0) 0 eq_refl Hh).
Defined.

Lemma to_flat_array_int_writes_witness :
  height (right_only 1 2) ≤ 31 ∧
  elem_at (root (right_only 1 2)) 1 3 = Some 2 ∧ 3 ≤ 5 ∧
  snd (to_flat_array_int (right_only 1 2) (filled 0) 5) 3 = 2.
Proof.
  assert (height (right_only 1 2) ≤ 31) as Hh by by vm_compute.
  assert (3 ≤ 5) as H35 by lia.
  split; [exact Hh|]. split; [reflexivity|]. split; [exact H35|].
  exact (to_flat_array_int_writes (right_only 1 2) (filled 0) 5 3 2 Hh eq_refl H35).
Defined.

Lemma copy_h_int_any_witness :
  height (right_only 1 2) ≤ 31 ∧
  ∃ copy,
    copy_h_int (right_only 1 2) (filled 0) = Some copy ∧
    complete copy ∧
    node_count copy = node_count (right_only 1 2) ∧
    ∀ j, 1 ≤ j ≤ node_count (right_only 1 2) →
         elem_at (root copy) 1 j
         = Some (default (filled 0 j) (elem_at (root (right_only 1 2)) 1 j)).
Proof.
  assert (height (right_only 1 2) ≤ 31) as Hh by by vm_compute.
  split; [exact Hh|].
  exact (copy_h_int_any (right_only 1 2) (filled 0) Hh).
Defined.

Lemma operator_eq_h_cpp_agree_witness :
  (∀ x y, int_ne x y = negb (int_eq x y)) ∧
  ((complete (right_only 1 2) ∧ complete (three 10 20 30)) ∨
   node_count (right_only 1 2) ≠ node_count (three 10 20 30)) ∧
  operator_eq_h int_ne (right_only 1 2) (three 10 20 30) (filled 0) (filled 7)
  = operator_eq_cpp int_eq (right_only 1 2) (three 10 20 30).
Proof.
  assert ((complete (right_only 1 2) ∧ complete (three 10 20 30)) ∨
          node_count (right_only 1 2) ≠ node_count (three 10 20 30)) as Hin.
  { right. by vm_compute. }
  split; [exact int_ne_negb|]. split; [exact Hin|].
  exact (operator_eq_h_cpp_agree int_eq int_ne (right_only 1 2) (three 10 20 30)
           (filled 0) (filled 7) int_ne_negb Hin).
Defined.
